(** * Upload queue store (frontend/src/store/useUploadStore.ts)

    A shallow embedding of the zustand store that drives the sequential
    PDF upload queue, together with the part of the JavaScript event loop
    it relies on: transfers in flight, timers set by [setTimeout], and the
    microtask that resumes [processQueue] when [uploadPDF] rejects before
    it ever reaches the network. *)

From Stdlib Require Import List String Ascii Bool ZArith NArith Lia.
From Stdlib Require Import DecimalString DecimalN.
Import ListNotations.

Local Open Scope string_scope.
Local Open Scope list_scope.

(** ** Strings built by the template literals *)

(** [`${n}`] for a non-negative integer [n]. *)
Definition string_of_N (n : N) : string :=
  NilEmpty.string_of_uint (N.to_uint n).

Definition dquote : string := String (ascii_of_nat 34) EmptyString.

(** JavaScript truthiness of a [string | null | undefined] value. *)
Definition truthy (s : option string) : bool :=
  match s with
  | Some EmptyString => false
  | Some _ => true
  | None => false
  end.

(** ** Data model *)

(** The three properties of the browser [File] object the store reads. *)
Record File := mkFile {
  fname : string;
  fsize : N;
  ftype : string
}.

Inductive Status := pending | uploading | success | error.

Definition Status_eqb (a b : Status) : bool :=
  match a, b with
  | pending, pending | uploading, uploading
  | success, success | error, error => true
  | _, _ => false
  end.

(** [interface UploadFile].  [file] is optional because [partialize]
    writes [undefined] into it. *)
Record UploadFile := mkUploadFile {
  id : string;
  file : option File;
  title : string;
  description : option string;
  status : Status;
  progress : Z;
  error_msg : option string;
  result : option string
}.

(** The data fields of [interface UploadState]. *)
Record UploadState := mkUploadState {
  files : list UploadFile;
  isUploading : bool;
  currentUploadingId : option string
}.

(** How a transfer ends: the promise returned by [uploadPDF] resolves with
    the server's answer or rejects with an [Error] carrying a message. *)
Inductive Outcome :=
| Resolve (res : string)
| Reject (msg : string).

(** What [uploadPDF] puts on the wire. *)
Record Request := mkRequest {
  rq_token : string;
  rq_title : string;
  rq_description : option string;
  rq_file : option File
}.

(** Effects issued so far, oldest first. *)
Inductive Effect :=
| CallUploadPDF (f : UploadFile)
| XhrSend (r : Request)
| SetTimeout (delay : Z).

(** The store together with its environment. [inflight] holds the
    [fileToUpload] captured by every [processQueue] activation suspended at
    its [await] on the network; [microtasks] holds the activations whose
    promise is already rejected; [timers] holds the delays of the pending
    [setTimeout(() => get().processQueue(), d)] callbacks. *)
Record World := mkWorld {
  store : UploadState;
  access_token : option string;
  inflight : list UploadFile;
  microtasks : list (UploadFile * string);
  timers : list Z;
  effects : list Effect
}.

Definition initial_store : UploadState := mkUploadState [] false None.

Definition initial_world : World :=
  mkWorld initial_store None [] [] [] [].

(** ** Field updates *)

Definition set_files (s : UploadState) (l : list UploadFile) : UploadState :=
  mkUploadState l (isUploading s) (currentUploadingId s).

Definition set_isUploading (s : UploadState) (b : bool) : UploadState :=
  mkUploadState (files s) b (currentUploadingId s).

Definition set_currentUploadingId (s : UploadState) (i : option string)
  : UploadState :=
  mkUploadState (files s) (isUploading s) i.

Definition with_store (w : World) (s : UploadState) : World :=
  mkWorld s (access_token w) (inflight w) (microtasks w) (timers w)
          (effects w).

Definition on_store (g : UploadState -> UploadState) (w : World) : World :=
  with_store w (g (store w)).

Definition emit (e : Effect) (w : World) : World :=
  mkWorld (store w) (access_token w) (inflight w) (microtasks w) (timers w)
          (effects w ++ [e]).

Definition setTimeout (d : Z) (w : World) : World :=
  emit (SetTimeout d)
       (mkWorld (store w) (access_token w) (inflight w) (microtasks w)
                (timers w ++ [d]) (effects w)).

(** ** Messages *)

Definition MAX_FILE_SIZE : N := 10 * 1024 * 1024.

Definition pad2 (n : N) : string :=
  if (n <? 10)%N then ("0" ++ string_of_N n)%string else string_of_N n.

(** [x.toFixed(2)] for [x = size / (1024*1024)]. The quotient by a power of
    two is exact on a double (sizes are below 2^53), so the result is the
    exact quotient rounded to hundredths, a tie going up. *)
Definition mb_toFixed2 (size : N) : string :=
  let n := ((200 * size + 1048576) / 2097152)%N in
  (string_of_N (n / 100) ++ "." ++ pad2 (n mod 100))%string.

Definition size_error (size : N) : string :=
  ("File size (" ++ mb_toFixed2 size
   ++ " MB) exceeds the maximum allowed size of 10 MB")%string.

Definition type_error (ty : string) : string :=
  ("File type " ++ dquote
   ++ (if truthy (Some ty) then ty else "unknown") ++ dquote
   ++ " is not supported. Only PDF files are allowed")%string.

Definition no_token_error : string := "No authentication token found".
Definition network_error : string := "Network error occurred during upload".
Definition abort_error : string := "Upload was aborted".

(** ** Store actions *)

Fixpoint newFiles_from (index : N) (len : nat) (fs : list (N * File))
    (baseTitle : string) (description : option string)
    (initialError : option string) : list UploadFile :=
  match fs with
  | [] => []
  | nf :: rest =>
      mkUploadFile
        (string_of_N (fst nf) ++ "-" ++ string_of_N index)%string
        (Some (snd nf))
        (if Nat.eqb len 1 then baseTitle
         else (baseTitle ++ " - Part " ++ string_of_N (index + 1))%string)
        description
        (if truthy initialError then error else pending)
        0
        initialError
        None
      :: newFiles_from (index + 1) len rest baseTitle description
                       initialError
  end.

(** [files.map((file, index) => ({...}))] of [addFiles]. [Date.now()] is
    evaluated inside the callback, once per file: every file comes with the
    value it returns there. *)
Definition newFiles (fs : list (N * File)) (baseTitle : string)
    (description : option string) (initialError : option string)
  : list UploadFile :=
  newFiles_from 0 (List.length fs) fs baseTitle description initialError.

Definition updateFileStatus (i : string) (st : Status) (p : Z)
    (err res : option string) (s : UploadState) : UploadState :=
  set_files s
    (map (fun f =>
            if String.eqb (id f) i
            then mkUploadFile (id f) (file f) (title f) (description f)
                              st p err res
            else f)
         (files s)).

Definition is_pending (f : UploadFile) : bool := Status_eqb (status f) pending.

Definition pendingFiles (s : UploadState) : list UploadFile :=
  filter is_pending (files s).

(** [pendingFiles[0]]. *)
Definition fileToUpload (s : UploadState) : option UploadFile :=
  hd_error (pendingFiles s).

(** [PDFUploadService.uploadPDF] up to the point where it returns its
    promise: without a token it throws, which rejects the promise at once;
    otherwise the request is sent and the promise stays open. *)
Definition uploadPDF (f : UploadFile) (w : World) : World :=
  let w := emit (CallUploadPDF f) w in
  match access_token w with
  | Some (String c tok') =>
      let tok := String c tok' in
      let w := emit (XhrSend (mkRequest tok (title f)
                                (if truthy (description f)
                                 then description f else None)
                                (file f))) w in
      mkWorld (store w) (access_token w) (inflight w ++ [f])
              (microtasks w) (timers w) (effects w)
  | _ =>
      mkWorld (store w) (access_token w) (inflight w)
              (microtasks w ++ [(f, no_token_error)]) (timers w) (effects w)
  end.

(** The two local checks of [processQueue] end the same way. *)
Definition fail_validation (f : UploadFile) (msg : string) (w : World)
  : World :=
  let w := on_store (updateFileStatus (id f) error 0 (Some msg) None) w in
  if isUploading (store w) then setTimeout 100 w else w.

(** [processQueue] from its entry to its first suspension. Reading
    [file.size] of an item without a file throws, which ends the
    activation with the state untouched. *)
Definition processQueue (w : World) : World :=
  let state := store w in
  if negb (isUploading state) then w
  else
    match fileToUpload state with
    | None =>
        on_store (fun s => set_currentUploadingId (set_isUploading s false)
                                                   None) w
    | Some f =>
        match file f with
        | None => w
        | Some fl =>
            if (MAX_FILE_SIZE <? fsize fl)%N
            then fail_validation f (size_error (fsize fl)) w
            else if negb (String.eqb (ftype fl) "application/pdf")
            then fail_validation f (type_error (ftype fl)) w
            else
              let w := on_store
                         (fun s => set_currentUploadingId s (Some (id f))) w in
              let w := on_store
                         (updateFileStatus (id f) uploading 0 None None) w in
              uploadPDF f w
        end
    end.

(** [processQueue] after its [await]: the [try] continuation on [Resolve],
    the [catch] block on [Reject]. *)
Definition processQueue_resume (f : UploadFile) (o : Outcome) (w : World)
  : World :=
  match o with
  | Resolve res =>
      let w := on_store
                 (updateFileStatus (id f) success 100 None (Some res)) w in
      if isUploading (store w) then setTimeout 500 w else w
  | Reject msg =>
      let w := on_store (updateFileStatus (id f) error 0 (Some msg) None) w in
      if isUploading (store w) then setTimeout 1000 w else w
  end.

Definition startUpload (w : World) : World :=
  if negb (isUploading (store w))
  then processQueue (on_store (fun s => set_isUploading s true) w)
  else w.

Definition addFiles (fs : list (N * File)) (baseTitle : string)
    (description : option string) (initialError : option string)
    (w : World) : World :=
  let created := newFiles fs baseTitle description initialError in
  let w := on_store (fun s => set_files s (files s ++ created)) w in
  if negb (truthy initialError) && negb (isUploading (store w))
  then startUpload w
  else w.

Definition removeFile (i : string) (w : World) : World :=
  on_store
    (fun s => set_files s
                (filter (fun f => negb (String.eqb (id f) i)) (files s)))
    w.

Definition keeps (f : UploadFile) : bool :=
  Status_eqb (status f) pending || Status_eqb (status f) uploading.

Definition clearCompleted (w : World) : World :=
  on_store (fun s => set_files s (filter keeps (files s))) w.

Definition clearAll (w : World) : World :=
  with_store w (mkUploadState [] false None).

Definition pauseUpload (w : World) : World :=
  on_store (fun s => set_currentUploadingId (set_isUploading s false) None) w.

Definition retry_item (i : string) (f : UploadFile) : UploadFile :=
  if String.eqb (id f) i
  then mkUploadFile (id f) (file f) (title f) (description f)
                    pending 0 None (result f)
  else f.

Definition retryFile (i : string) (w : World) : World :=
  let w := on_store (fun s => set_files s (map (retry_item i) (files s))) w in
  if negb (isUploading (store w)) then startUpload w else w.

(** ** Persistence *)

Definition strip_file (f : UploadFile) : UploadFile :=
  mkUploadFile (id f) None (title f) (description f) (status f)
               (progress f) (error_msg f) (result f).

Definition partialize (s : UploadState) : UploadState :=
  mkUploadState (map strip_file (files s)) false None.

Definition has_file (f : UploadFile) : bool :=
  match file f with Some _ => true | None => false end.

(** The callback returned by [onRehydrateStorage], applied to the state
    read back from storage. *)
Definition onRehydrateStorage (s : UploadState) : UploadState :=
  mkUploadState (filter has_file (files s)) false None.

(** ** The event loop *)

(** One task of the event loop: a command issued by the interface, a
    change of the stored token, or a callback of a transfer or a timer. *)
Inductive Event :=
| AddFiles (fs : list (N * File)) (baseTitle : string)
           (description initialError : option string)
| RemoveFile (i : string)
| ClearCompleted
| ClearAll
| StartUpload
| PauseUpload
| RetryFile (i : string)
| SetToken (t : option string)
| Progress (k : nat) (p : Z)
| Settle (k : nat) (o : Outcome)
| TimerFires (k : nat).

Fixpoint remove_nth {A} (k : nat) (l : list A) : list A :=
  match l, k with
  | [], _ => []
  | _ :: t, O => t
  | x :: t, S k' => x :: remove_nth k' t
  end.

Definition task (e : Event) (w : World) : World :=
  match e with
  | AddFiles fs baseTitle description initialError =>
      addFiles fs baseTitle description initialError w
  | RemoveFile i => removeFile i w
  | ClearCompleted => clearCompleted w
  | ClearAll => clearAll w
  | StartUpload => startUpload w
  | PauseUpload => pauseUpload w
  | RetryFile i => retryFile i w
  | SetToken t =>
      mkWorld (store w) t (inflight w) (microtasks w) (timers w) (effects w)
  | Progress k p =>
      match nth_error (inflight w) k with
      | Some f => on_store (updateFileStatus (id f) uploading p None None) w
      | None => w
      end
  | Settle k o =>
      match nth_error (inflight w) k with
      | Some f =>
          processQueue_resume f o
            (mkWorld (store w) (access_token w) (remove_nth k (inflight w))
                     (microtasks w) (timers w) (effects w))
      | None => w
      end
  | TimerFires k =>
      match nth_error (timers w) k with
      | Some _ =>
          processQueue
            (mkWorld (store w) (access_token w) (inflight w) (microtasks w)
                     (remove_nth k (timers w)) (effects w))
      | None => w
      end
  end.

(** After a task the microtask queue is emptied: every activation whose
    promise was rejected on the spot runs its [catch] block. *)
Definition run_microtasks (w : World) : World :=
  fold_left (fun w m => processQueue_resume (fst m) (Reject (snd m)) w)
            (microtasks w)
            (mkWorld (store w) (access_token w) (inflight w) [] (timers w)
                     (effects w)).

Definition step (w : World) (e : Event) : World := run_microtasks (task e w).

Definition run (w : World) (es : list Event) : World := fold_left step es w.

Definition count_status (st : Status) (s : UploadState) : nat :=
  List.length (filter (fun f => Status_eqb (status f) st) (files s)).

(** ** Vocabulary of the statements *)

(** What makes an item the item it is: the fields no status update
    touches. *)
Definition ident (f : UploadFile)
  : string * option File * string * option string :=
  (id f, file f, title f, description f).

Definition completed (f : UploadFile) : bool :=
  Status_eqb (status f) success || Status_eqb (status f) error.

(** An item as [updateFileStatus] rewrites it. *)
Definition with_status (st : Status) (p : Z) (err res : option string)
    (f : UploadFile) : UploadFile :=
  mkUploadFile (id f) (file f) (title f) (description f) st p err res.




Definition created_by (e : Event) : list UploadFile :=
  match e with
  | AddFiles fs baseTitle description initialError =>
      newFiles fs baseTitle description initialError
  | _ => []
  end.

Definition removes (e : Event) : bool :=
  match e with
  | RemoveFile _ | ClearCompleted | ClearAll => true
  | _ => false
  end.

Definition is_xhr (e : Effect) : bool :=
  match e with XhrSend _ => true | _ => false end.

(** Number of requests put on the wire so far. *)
Definition requests_sent (w : World) : nat :=
  List.length (filter is_xhr (effects w)).

Fixpoint has_dash (s : string) : bool :=
  match s with
  | EmptyString => false
  | String c s' => Ascii.eqb c "-" || has_dash s'
  end.

(** The item [f] was handed to the Transfer Client at some point. *)
Definition dispatched (f : UploadFile) (w : World) : Prop :=
  In (CallUploadPDF f) (effects w).

(** A recorded call of the Transfer Client is for an item that was
    [pending] when it was picked; other effects are unconstrained. *)
Definition effect_ok (e : Effect) : Prop :=
  match e with
  | CallUploadPDF f => status f = pending
  | _ => True
  end.

(** The queue as a sequence of item identities. *)
Definition idents (w : World)
  : list (string * option File * string * option string) :=
  map ident (files (store w)).

(** ** Sample inputs *)

Definition a_pdf : File := mkFile "a.pdf" 1048576 "application/pdf".
Definition b_pdf : File := mkFile "b.pdf" 1048576 "application/pdf".
Definition big_pdf : File := mkFile "big.pdf" 15728640 "application/pdf".

Definition sample_item (st : Status) : UploadFile :=
  mkUploadFile "1000-0" (Some a_pdf) "a" None st 0 None None.

(** One valid file was added with a token present and its transfer has
    succeeded; the orchestrator is still active. *)
Definition world_after_success : World :=
  run initial_world
      [SetToken (Some "tok"); AddFiles [(1000%N, a_pdf)] "a" None None;
       Settle 0 (Resolve "ok")].

(** An active orchestrator whose only pending item is over the size
    limit. *)
Definition world_oversized : World :=
  mkWorld (mkUploadState
             [mkUploadFile "1000-0" (Some big_pdf) "big" None pending 0
                           None None]
             true None)
          (Some "tok") [] [] [] [].

(** An active orchestrator with one valid pending item and a token. *)
Definition world_ready : World :=
  mkWorld (mkUploadState [sample_item pending] true None)
          (Some "tok") [] [] [] [].

(** The same, with no token in storage. *)
Definition world_no_token : World :=
  mkWorld (mkUploadState [sample_item pending] true None)
          None [] [] [] [].

(** Two files are added one millisecond apart with a token present; while
    the first transfer is in flight the queue is paused and started again. *)
Definition pause_restart_trace : list Event :=
  [SetToken (Some "tok");
   AddFiles [(1000%N, a_pdf)] "a" None None;
   AddFiles [(1001%N, b_pdf)] "b" None None;
   PauseUpload;
   StartUpload].

(** Two files dropped together: the upload dialog calls [addFiles] once per
    file, and both calls read the same millisecond. *)
Definition same_ms_trace : list Event :=
  [AddFiles [(1000%N, a_pdf)] "a" None None;
   AddFiles [(1000%N, b_pdf)] "b" None None].

(** A file is added, removed, and another one added, within one
    millisecond. *)
Definition reuse_trace : list Event :=
  [AddFiles [(1000%N, a_pdf)] "a" None None;
   RemoveFile "1000-0";
   AddFiles [(1000%N, b_pdf)] "b" None None].



(** A store holding one pending item, as it is when the page is left. *)
Definition sample_store : UploadState :=
  mkUploadState [sample_item pending] false None.

(** ** The upload dialog (frontend/src/components/Admin/AddPdfUpload.tsx) *)

(** [name.replace(/\.(pdf|PDF)$/, '')]: the pattern is anchored at the end
    of the name, so it can only match its last four characters. *)
Fixpoint strip_pdf_ext (s : string) : string :=
  match s with
  | EmptyString => EmptyString
  | String c s' =>
      if String.eqb s ".pdf" || String.eqb s ".PDF" then EmptyString
      else String c (strip_pdf_ext s')
  end.

(** [file.name.replace(...) || file.name]. *)
Definition derive_title (name : string) : string :=
  if truthy (Some (strip_pdf_ext name)) then strip_pdf_ext name else name.

Definition empty_error : string := "File appears to be empty".

(** The [errorMessage] that [handleFilesUpload] computes for a file; the
    empty string when the file is accepted. *)
Definition errorMessage (f : File) : string :=
  if (MAX_FILE_SIZE <? fsize f)%N then size_error (fsize f)
  else if negb (String.eqb (ftype f) "application/pdf")
  then type_error (ftype f)
  else if (fsize f =? 0)%N then empty_error
  else EmptyString.

(** The body of the [forEach] of [handleFilesUpload], with the clock
    reading of its [addFiles] call. *)
Definition upload_one (now : N) (f : File) (w : World) : World :=
  let title := derive_title (fname f) in
  if truthy (Some (errorMessage f))
  then addFiles [(now, f)] title None (Some (errorMessage f)) w
  else addFiles [(now, f)] title None None w.

(** [handleFilesUpload]: every file comes with the clock reading of its
    call. *)
Definition handleFilesUpload (fs : list (N * File)) (w : World) : World :=
  fold_left (fun w nf => upload_one (fst nf) (snd nf) w) fs w.

(** ** The queue views (UploadQueue, UploadStatusIndicator) *)

Definition pendingCount (s : UploadState) : nat := count_status pending s.
Definition uploadingCount (s : UploadState) : nat :=
  count_status uploading s.
Definition successCount (s : UploadState) : nat := count_status success s.
Definition errorCount (s : UploadState) : nat := count_status error s.

(** [!isUploading && pendingCount > 0]: the Start button is shown. *)
Definition showStart (s : UploadState) : bool :=
  negb (isUploading s) && (0 <? pendingCount s)%nat.

(** [files.find(f => f.id === currentUploadingId)]. *)
Definition currentFile (s : UploadState) : option UploadFile :=
  find (fun f => match currentUploadingId s with
                 | Some i => String.eqb (id f) i
                 | None => false
                 end)
       (files s).

(** ** Vocabulary of the further statements *)

(** Events that can start the drive loop from an idle orchestrator. *)
Definition starts (e : Event) : bool :=
  match e with
  | AddFiles _ _ _ _ | StartUpload | RetryFile _ => true
  | _ => false
  end.

(** Events that clear the activity flag whatever is still going on. *)
Definition halts (e : Event) : bool :=
  match e with
  | PauseUpload | ClearAll => true
  | _ => false
  end.

(** What the status of an item says about its other fields. *)
Definition fields_ok (f : UploadFile) : Prop :=
  file f <> None
  /\ match status f with
     | pending => progress f = 0%Z /\ truthy (error_msg f) = false
     | uploading => error_msg f = None /\ result f = None
     | success =>
         progress f = 100%Z /\ error_msg f = None /\ result f <> None
     | error =>
         progress f = 0%Z /\ error_msg f <> None /\ result f = None
     end.

(** Continuations of the drive loop that are still to run: transfers
    awaited and timers set. *)
Definition continuations (w : World) : nat :=
  List.length (inflight w) + List.length (timers w).

(** The same, counting also the activations whose [catch] block is about
    to run. *)
Definition work (w : World) : nat :=
  continuations w + List.length (microtasks w).

(** An active orchestrator has work left that will re-enter the drive
    loop, and a current item is named only while it is active. *)
Definition live (w : World) : Prop :=
  (isUploading (store w) = true -> 1 <= work w)
  /\ (currentUploadingId (store w) <> None -> isUploading (store w) = true).

(** Exactly one continuation of the drive loop exists while the
    orchestrator is active, and none while it is idle. *)
Definition single (w : World) : Prop :=
  work w = if isUploading (store w) then 1 else 0.

(** Ids of the activations of the drive loop that are suspended in the
    Transfer Client or about to run their [catch] block. *)
Definition awaited_ids (w : World) : list string :=
  map id (inflight w) ++ map (fun m => id (fst m)) (microtasks w).

(** Every item shown as [uploading] belongs to such an activation. *)
Definition uploading_awaited (w : World) : Prop :=
  forall f, In f (files (store w)) -> status f = uploading ->
            In (id f) (awaited_ids w).

(** The clock reading and the position with which each item of a call is
    created. *)
Fixpoint stamps_from (index : N) (fs : list (N * File)) : list (N * N) :=
  match fs with
  | [] => []
  | nf :: rest => (fst nf, index) :: stamps_from (index + 1) rest
  end.

(** [`${Date.now()}-${index}`]. *)
Definition id_of_stamp (st : N * N) : string :=
  (string_of_N (fst st) ++ "-" ++ string_of_N (snd st))%string.

(** The readings and positions of all the items created in a run. *)
Definition stamps (es : list Event) : list (N * N) :=
  flat_map (fun e => match e with
                     | AddFiles fs _ _ _ => stamps_from 0 fs
                     | _ => []
                     end) es.

(** The synchronous part of an event-loop task: store calls and callbacks
    run back to back, as the calls of one handler do. *)
Definition exec (w : World) (cmds : list Event) : World :=
  fold_left (fun w e => task e w) cmds w.

(** A whole task: its synchronous part, then the microtasks. *)
Definition run_task (w : World) (cmds : list Event) : World :=
  run_microtasks (exec w cmds).

Definition run_tasks (w : World) (ts : list (list Event)) : World :=
  fold_left run_task ts w.

(** Events that can put an item into [pending]. *)
Definition queues (e : Event) : bool :=
  match e with
  | AddFiles _ _ _ _ | RetryFile _ => true
  | _ => false
  end.

(** Two files dropped on the dialog one millisecond apart, the second over
    the size limit. *)
Definition sample_files : list (N * File) :=
  [(1000%N, a_pdf); (1001%N, big_pdf)].

(** * Properties *)

(** ** Basic facts *)

(** Split on the condition of the first [if] of the goal. *)
Ltac case_if :=
  match goal with |- context [if ?b then _ else _] => destruct b end.

Lemma Status_eqb_eq (a b : Status) : Status_eqb a b = true <-> a = b.
Proof. destruct a, b; simpl; split; congruence. Qed.

Lemma Status_eqb_neq (a b : Status) : Status_eqb a b = false <-> a <> b.
Proof. destruct a, b; simpl; split; congruence. Qed.

Lemma keeps_not_completed (f : UploadFile) : keeps f = negb (completed f).
Proof. unfold keeps, completed. destruct (status f); reflexivity. Qed.

Lemma keeps_iff (f : UploadFile) :
  keeps f = true <-> status f = pending \/ status f = uploading.
Proof.
  unfold keeps. destruct (status f); simpl; split; intros H;
    try (destruct H; congruence); auto; congruence.
Qed.

(** ** clearCompleted *)

(** C8. [clearCompleted] keeps exactly the items that are [pending] or
    [uploading], in their original order, and drops exactly those that are
    [success] or [error]; nothing else in the store or its environment
    changes. *)
Theorem clearCompleted_removes_exactly_completed (w : World) :
  files (store (clearCompleted w))
    = filter (fun f => negb (completed f)) (files (store w))
  /\ (forall f, In f (files (store (clearCompleted w)))
                <-> In f (files (store w))
                    /\ (status f = pending \/ status f = uploading))
  /\ (forall f, In f (files (store w)) ->
                status f = success \/ status f = error ->
                ~ In f (files (store (clearCompleted w))))
  /\ isUploading (store (clearCompleted w)) = isUploading (store w)
  /\ currentUploadingId (store (clearCompleted w))
       = currentUploadingId (store w)
  /\ inflight (clearCompleted w) = inflight w
  /\ timers (clearCompleted w) = timers w.
Proof.
  assert (Hin : forall f, In f (files (store (clearCompleted w)))
                          <-> In f (files (store w))
                              /\ (status f = pending \/ status f = uploading)).
  { intros f. simpl. rewrite filter_In, keeps_iff. reflexivity. }
  split; [simpl; apply filter_ext; exact keeps_not_completed |].
  split; [exact Hin |].
  split; [| simpl; auto].
  intros f _ Hst Hin'. apply Hin in Hin'. destruct Hin' as [_ Hk].
  destruct Hst, Hk; congruence.
Qed.

(** ** removeFile *)

Lemma id_neq_iff (f : UploadFile) (i : string) :
  negb (String.eqb (id f) i) = true <-> id f <> i.
Proof.
  destruct (String.eqb_spec (id f) i); simpl; split; congruence.
Qed.

(** C10. [removeFile i] deletes the items whose id is [i] and nothing else:
    the other items stay, in order; [isUploading], [currentUploadingId] and
    the transfers in flight are untouched. So when [i] is the id being
    uploaded, [currentUploadingId] keeps naming an id that is no longer in
    the queue, and the settlement of that transfer changes no item. *)
Theorem removeFile_frame (i : string) (w : World) :
  (forall f, In f (files (store (removeFile i w)))
             <-> In f (files (store w)) /\ id f <> i)
  /\ files (store (removeFile i w))
       = filter (fun f => negb (String.eqb (id f) i)) (files (store w))
  /\ isUploading (store (removeFile i w)) = isUploading (store w)
  /\ currentUploadingId (store (removeFile i w))
       = currentUploadingId (store w)
  /\ inflight (removeFile i w) = inflight w
  /\ timers (removeFile i w) = timers w
  /\ effects (removeFile i w) = effects w
  /\ (currentUploadingId (store w) = Some i ->
      currentUploadingId (store (removeFile i w)) = Some i
      /\ forall f, In f (files (store (removeFile i w))) -> id f <> i)
  /\ (forall f o, id f = i ->
        files (store (processQueue_resume f o (removeFile i w)))
          = files (store (removeFile i w))
        /\ currentUploadingId (store (processQueue_resume f o (removeFile i w)))
          = currentUploadingId (store w)).
Proof.
  assert (Hin : forall f, In f (files (store (removeFile i w)))
                          <-> In f (files (store w)) /\ id f <> i).
  { intros f. simpl. rewrite filter_In, id_neq_iff. reflexivity. }
  split; [exact Hin |].
  do 6 (split; [reflexivity |]).
  split.
  - intros Hc. split; [exact Hc |]. intros f Hf. apply Hin in Hf. tauto.
  - intros f o Hid. subst i. split.
    + destruct o; simpl;
        case_if;
        simpl;
        (rewrite <- (map_id (filter _ _)) at 2; apply map_ext_in;
         intros g Hg; apply filter_In in Hg; destruct Hg as [_ Hg];
         destruct (String.eqb (id g) (id f)); [discriminate | reflexivity]).
    + destruct o; simpl;
        case_if;
        reflexivity.
Qed.

(** ** Persistence round trip *)

Lemma filter_has_file_strip (l : list UploadFile) :
  filter has_file (map strip_file l) = [].
Proof. induction l as [| f l IH]; simpl; [reflexivity | exact IH]. Qed.

(** C3, as stated, fails: the one item of [sample_store] is among the
    persisted items and is not among the restored ones. *)
Lemma persist_restore_loses_items :
  In (strip_file (sample_item pending)) (files (partialize sample_store))
  /\ ~ In (strip_file (sample_item pending))
          (files (onRehydrateStorage (partialize sample_store)))
  /\ files (onRehydrateStorage (partialize sample_store))
       <> files (partialize sample_store).
Proof.
  split; [left; reflexivity |]. split.
  - simpl. tauto.
  - simpl. discriminate.
Qed.

(** C3, amended. Persisting keeps every item in order with its payload
    absent and the flags idle; restoring what was persisted drops every
    item, since each lacks its payload, and leaves the flags idle. *)
Theorem persist_restore_is_empty (s : UploadState) :
  onRehydrateStorage (partialize s) = mkUploadState [] false None
  /\ files (partialize s) = map strip_file (files s)
  /\ Forall (fun f => file f = None) (files (partialize s))
  /\ isUploading (partialize s) = false
  /\ currentUploadingId (partialize s) = None.
Proof.
  split.
  - unfold onRehydrateStorage. simpl. now rewrite filter_has_file_strip.
  - repeat split. simpl. apply Forall_forall. intros f Hf.
    apply in_map_iff in Hf. destruct Hf as [g [<- _]]. reflexivity.
Qed.

(** ** retryFile *)

(** C1, as stated, fails: the item of [world_after_success] is in
    [success], not in [error], and [retryFile] sends it back to
    [pending]. *)
Lemma retryFile_changes_success_item :
  (forall f, In f (files (store world_after_success)) ->
             id f = "1000-0" -> status f <> error)
  /\ map status (files (store world_after_success)) = [success]
  /\ map status (files (store (retryFile "1000-0" world_after_success)))
       = [pending]
  /\ retryFile "1000-0" world_after_success <> world_after_success.
Proof.
  split; [| split; [reflexivity | split; [reflexivity |]]].
  - intros f [<- | []] _. discriminate.
  - intros H. apply (f_equal (fun w => map status (files (store w)))) in H.
    discriminate H.
Qed.

Lemma retry_item_match (i : string) (f : UploadFile) :
  id f = i ->
  retry_item i f = with_status pending 0 None (result f) f.
Proof. intros <-. unfold retry_item. now rewrite String.eqb_refl. Qed.

Lemma retry_item_other (i : string) (f : UploadFile) :
  id f <> i -> retry_item i f = f.
Proof.
  intros H. unfold retry_item.
  destruct (String.eqb_spec (id f) i); [contradiction | reflexivity].
Qed.

(** C1, amended. [retryFile i] has no guard on the status: every item
    whose id is [i] becomes [pending] with progress 0 and its error message
    cleared, whatever its status was; every other item is unchanged. When
    the orchestrator is active nothing else changes; when it is idle it is
    started. *)
Theorem retryFile_resets_whatever_status (i : string) (w : World) :
  let reset :=
    with_store w (set_files (store w) (map (retry_item i) (files (store w))))
  in
  retryFile i w = (if isUploading (store w) then reset else startUpload reset)
  /\ (forall f, id f = i ->
                status (retry_item i f) = pending
                /\ progress (retry_item i f) = 0%Z
                /\ error_msg (retry_item i f) = None
                /\ ident (retry_item i f) = ident f
                /\ result (retry_item i f) = result f)
  /\ (forall f, id f <> i -> retry_item i f = f)
  /\ (isUploading (store w) = true ->
      files (store (retryFile i w)) = map (retry_item i) (files (store w))
      /\ isUploading (store (retryFile i w)) = true
      /\ currentUploadingId (store (retryFile i w))
           = currentUploadingId (store w)
      /\ inflight (retryFile i w) = inflight w
      /\ timers (retryFile i w) = timers w
      /\ effects (retryFile i w) = effects w).
Proof.
  intros reset. split; [| split; [| split]].
  - unfold retryFile. simpl. destruct (isUploading (store w)); reflexivity.
  - intros f Hf. rewrite (retry_item_match i f Hf). repeat split.
  - apply retry_item_other.
  - intros Hact. unfold retryFile. simpl. rewrite Hact. simpl.
    repeat split. exact Hact.
Qed.

(** ** Delay before the drive loop is re-entered *)

(** C5, as stated, fails: the item of [world_oversized] ends in [error] by
    local validation and the loop is re-entered after 100 ms, which is not
    longer than the 500 ms that follow a success. *)
Lemma validation_failure_delay_is_shorter :
  map status (files (store (processQueue world_oversized))) = [error]
  /\ timers (processQueue world_oversized) = [100%Z]
  /\ timers (processQueue_resume (sample_item pending) (Resolve "ok")
                                 world_ready) = [500%Z]
  /\ ~ (500 < 100)%Z.
Proof. repeat split. lia. Qed.

Lemma fail_validation_timers (f : UploadFile) (msg : string) (w : World) :
  isUploading (store w) = true ->
  timers (fail_validation f msg w) = timers w ++ [100%Z]
  /\ inflight (fail_validation f msg w) = inflight w
  /\ effects (fail_validation f msg w) = effects w ++ [SetTimeout 100]
  /\ files (store (fail_validation f msg w))
       = map (fun g => if String.eqb (id g) (id f)
                       then with_status error 0 (Some msg) None g else g)
             (files (store w)).
Proof.
  intros Hact. unfold fail_validation. simpl. rewrite Hact. repeat split.
Qed.

(** C5, amended. When the orchestrator is still active at a settlement,
    the drive loop is re-entered after a positive delay: 500 ms after a
    success, 1000 ms after a failed transfer, which is longer, and 100 ms
    after a local validation failure, which is shorter. When it is no
    longer active, no re-entry is scheduled. *)
Theorem reentry_delay_by_settlement (w : World) (f : UploadFile) :
  (forall res,
      timers (processQueue_resume f (Resolve res) w)
      = if isUploading (store w) then timers w ++ [500%Z] else timers w)
  /\ (forall msg,
        timers (processQueue_resume f (Reject msg) w)
        = if isUploading (store w) then timers w ++ [1000%Z] else timers w)
  /\ (forall fl,
        isUploading (store w) = true ->
        fileToUpload (store w) = Some f ->
        file f = Some fl ->
        (MAX_FILE_SIZE < fsize fl)%N \/ ftype fl <> "application/pdf" ->
        timers (processQueue w) = timers w ++ [100%Z]
        /\ inflight (processQueue w) = inflight w
        /\ forall g, In g (files (store (processQueue w))) ->
                     id g = id f -> status g = error)
  /\ (0 < 100)%Z /\ (100 < 500)%Z /\ (500 < 1000)%Z.
Proof.
  split; [| split; [| split; [| lia]]].
  - intros res. simpl. destruct (isUploading (store w)); reflexivity.
  - intros msg. simpl. destruct (isUploading (store w)); reflexivity.
  - intros fl Hact Hsel Hfile Hbad.
    assert (Hpq : exists msg, processQueue w = fail_validation f msg w).
    { unfold processQueue. rewrite Hact, Hsel, Hfile. simpl.
      destruct (MAX_FILE_SIZE <? fsize fl)%N eqn:Hsz; [eauto |].
      destruct (String.eqb_spec (ftype fl) "application/pdf") as [Hty | Hty];
        simpl; [| eauto].
      apply N.ltb_ge in Hsz. destruct Hbad; [lia | contradiction]. }
    destruct Hpq as [msg ->].
    destruct (fail_validation_timers f msg w Hact) as (Ht & Hi & _ & Hf).
    split; [exact Ht | split; [exact Hi |]].
    intros g Hg Hid. rewrite Hf in Hg. apply in_map_iff in Hg.
    destruct Hg as [g0 [Hg0 _]]. subst g.
    destruct (String.eqb_spec (id g0) (id f)) as [E | E]; [reflexivity |].
    simpl in Hid. contradiction.
Qed.

(** ** A tick without a token *)

Lemma updateFileStatus_twice (i : string) (st1 st2 : Status) (p1 p2 : Z)
    (e1 e2 r1 r2 : option string) (l : list UploadFile) :
  map (fun g => if String.eqb (id g) i then with_status st2 p2 e2 r2 g else g)
      (map (fun g => if String.eqb (id g) i
                     then with_status st1 p1 e1 r1 g else g) l)
  = map (fun g => if String.eqb (id g) i then with_status st2 p2 e2 r2 g
                  else g) l.
Proof.
  rewrite map_map. apply map_ext. intros g.
  destruct (String.eqb (id g) i) eqn:E; simpl; rewrite E; reflexivity.
Qed.

Lemma fileToUpload_pending (s : UploadState) (f : UploadFile) :
  fileToUpload s = Some f -> In f (files s) /\ status f = pending.
Proof.
  unfold fileToUpload, pendingFiles. intros H.
  assert (Hin : In f (filter is_pending (files s))).
  { destruct (filter is_pending (files s)); simpl in H; [discriminate |].
    injection H as ->. left. reflexivity. }
  apply filter_In in Hin. destruct Hin as [Hin Hp]. split; [exact Hin |].
  apply Status_eqb_eq. exact Hp.
Qed.

(** C6, as stated, fails: with no token, the tick on [world_no_token]
    first shows its item as [uploading]; the [error] status comes after. *)
Lemma missing_token_item_is_marked_uploading :
  truthy (access_token world_no_token) = false
  /\ map status (files (store (processQueue world_no_token))) = [uploading]
  /\ currentUploadingId (store (processQueue world_no_token))
       = Some "1000-0"
  /\ map status
         (files (store (run_microtasks (processQueue world_no_token))))
       = [error].
Proof. repeat split. Qed.

(** C6, amended. On a tick whose selected item passes the local checks
    while no token is stored, the item is first marked [uploading] (and
    named by [currentUploadingId]); then, with no request sent, it goes to
    [error] with the message "No authentication token found" and progress
    0, and the next tick is scheduled, 1000 ms later. *)
Theorem missing_token_passes_through_uploading
    (w : World) (f : UploadFile) (fl : File) :
  isUploading (store w) = true ->
  fileToUpload (store w) = Some f ->
  file f = Some fl ->
  (fsize fl <= MAX_FILE_SIZE)%N ->
  ftype fl = "application/pdf" ->
  truthy (access_token w) = false ->
  microtasks w = [] ->
  files (store (processQueue w))
    = map (fun g => if String.eqb (id g) (id f)
                    then with_status uploading 0 None None g else g)
          (files (store w))
  /\ In (with_status uploading 0 None None f) (files (store (processQueue w)))
  /\ currentUploadingId (store (processQueue w)) = Some (id f)
  /\ requests_sent (processQueue w) = requests_sent w
  /\ files (store (run_microtasks (processQueue w)))
       = map (fun g => if String.eqb (id g) (id f)
                       then with_status error 0 (Some no_token_error) None g
                       else g)
             (files (store w))
  /\ effects (run_microtasks (processQueue w))
       = effects w ++ [CallUploadPDF f; SetTimeout 1000]
  /\ requests_sent (run_microtasks (processQueue w)) = requests_sent w
  /\ inflight (run_microtasks (processQueue w)) = inflight w
  /\ timers (run_microtasks (processQueue w)) = timers w ++ [1000%Z].
Proof.
  intros Hact Hsel Hfile Hsz Hty Htok Hmt.
  assert (Hpq : processQueue w
                = mkWorld
                    (updateFileStatus (id f) uploading 0 None None
                       (set_currentUploadingId (store w) (Some (id f))))
                    (access_token w) (inflight w) [(f, no_token_error)]
                    (timers w) (effects w ++ [CallUploadPDF f])).
  { unfold processQueue. rewrite Hact, Hsel, Hfile. simpl.
    apply N.ltb_ge in Hsz. rewrite Hsz, Hty. simpl.
    unfold uploadPDF. simpl. rewrite Hmt.
    destruct (access_token w) as [[| c t] |]; simpl in Htok;
      try discriminate; reflexivity. }
  rewrite Hpq. unfold run_microtasks, requests_sent. simpl. rewrite Hact.
  simpl. rewrite !filter_app, !length_app. simpl.
  change (fun f0 : UploadFile =>
            if String.eqb (id f0) (id f)
            then mkUploadFile (id f0) (file f0) (title f0) (description f0)
                              uploading 0 None None
            else f0)
    with (fun g => if String.eqb (id g) (id f)
                   then with_status uploading 0 None None g else g).
  change (fun f0 : UploadFile =>
            if String.eqb (id f0) (id f)
            then mkUploadFile (id f0) (file f0) (title f0) (description f0)
                              error 0 (Some no_token_error) None
            else f0)
    with (fun g => if String.eqb (id g) (id f)
                   then with_status error 0 (Some no_token_error) None g
                   else g).
  rewrite updateFileStatus_twice, <- app_assoc.
  repeat split; try lia.
  apply fileToUpload_pending in Hsel. destruct Hsel as [Hin _].
  apply in_map_iff. exists f. rewrite String.eqb_refl. tauto.
Qed.

Lemma missing_token_passes_through_uploading_witness :
  files (store (processQueue world_no_token))
    = [sample_item uploading]
  /\ files (store (run_microtasks (processQueue world_no_token)))
       = [with_status error 0 (Some no_token_error) None (sample_item pending)]
  /\ requests_sent (run_microtasks (processQueue world_no_token)) = 0
  /\ timers (run_microtasks (processQueue world_no_token)) = [1000%Z].
Proof.
  destruct (missing_token_passes_through_uploading
              world_no_token (sample_item pending) a_pdf
              eq_refl eq_refl eq_refl
              ltac:(vm_compute; discriminate) eq_refl eq_refl eq_refl)
    as (H1 & _ & _ & _ & H2 & _ & H3 & _ & H4).
  repeat split; assumption.
Defined.

(** ** Items created in [error] *)

Lemma effects_ok_emit (e : Effect) (w : World) :
  Forall effect_ok (effects w) -> effect_ok e ->
  Forall effect_ok (effects (emit e w)).
Proof.
  intros Hw He. simpl. apply Forall_app. split; [exact Hw |].
  constructor; [exact He | constructor].
Qed.

Lemma effects_ok_setTimeout (d : Z) (w : World) :
  Forall effect_ok (effects w) -> Forall effect_ok (effects (setTimeout d w)).
Proof. intros Hw. apply (effects_ok_emit (SetTimeout d)); simpl; auto. Qed.

Lemma effects_ok_fail_validation (f : UploadFile) (msg : string) (w : World) :
  Forall effect_ok (effects w) ->
  Forall effect_ok (effects (fail_validation f msg w)).
Proof.
  intros Hw. unfold fail_validation.
  case_if;
    [apply effects_ok_setTimeout |]; exact Hw.
Qed.

Lemma effects_ok_uploadPDF (f : UploadFile) (w : World) :
  status f = pending ->
  Forall effect_ok (effects w) -> Forall effect_ok (effects (uploadPDF f w)).
Proof.
  intros Hp Hw. unfold uploadPDF.
  destruct (access_token (emit (CallUploadPDF f) w)) as [[| c t] |]; simpl;
    repeat (apply Forall_app; split); auto;
    constructor; simpl; auto.
Qed.

Lemma effects_ok_processQueue (w : World) :
  Forall effect_ok (effects w) -> Forall effect_ok (effects (processQueue w)).
Proof.
  intros Hw. unfold processQueue.
  destruct (isUploading (store w)); simpl; [| exact Hw].
  destruct (fileToUpload (store w)) as [f |] eqn:Hsel; [| exact Hw].
  destruct (file f) as [fl |]; [| exact Hw].
  destruct (MAX_FILE_SIZE <? fsize fl)%N;
    [apply effects_ok_fail_validation; exact Hw |].
  destruct (String.eqb (ftype fl) "application/pdf"); simpl;
    [| apply effects_ok_fail_validation; exact Hw].
  apply effects_ok_uploadPDF; [| exact Hw].
  apply fileToUpload_pending in Hsel. tauto.
Qed.

Lemma effects_ok_resume (f : UploadFile) (o : Outcome) (w : World) :
  Forall effect_ok (effects w) ->
  Forall effect_ok (effects (processQueue_resume f o w)).
Proof.
  intros Hw. destruct o; simpl;
    case_if;
    try exact Hw;
    match goal with
    | |- context [setTimeout ?d ?w0] =>
        apply (effects_ok_setTimeout d w0); exact Hw
    end.
Qed.

Lemma effects_ok_startUpload (w : World) :
  Forall effect_ok (effects w) -> Forall effect_ok (effects (startUpload w)).
Proof.
  intros Hw. unfold startUpload.
  destruct (isUploading (store w)); simpl; [exact Hw |].
  apply effects_ok_processQueue. exact Hw.
Qed.

Lemma effects_ok_task (e : Event) (w : World) :
  Forall effect_ok (effects w) -> Forall effect_ok (effects (task e w)).
Proof.
  intros Hw. destruct e; simpl; try exact Hw.
  - unfold addFiles.
    case_if;
      [apply effects_ok_startUpload |]; exact Hw.
  - apply effects_ok_startUpload. exact Hw.
  - unfold retryFile.
    case_if;
      [apply effects_ok_startUpload |]; exact Hw.
  - destruct (nth_error (inflight w) k); exact Hw.
  - destruct (nth_error (inflight w) k); [| exact Hw].
    apply effects_ok_resume. exact Hw.
  - destruct (nth_error (timers w) k); [| exact Hw].
    apply effects_ok_processQueue. exact Hw.
Qed.

Lemma effects_ok_fold_resume (l : list (UploadFile * string)) (w : World) :
  Forall effect_ok (effects w) ->
  Forall effect_ok
    (effects (fold_left
                (fun w m => processQueue_resume (fst m) (Reject (snd m)) w)
                l w)).
Proof.
  revert w. induction l as [| m l IH]; intros w Hw; simpl; [exact Hw |].
  apply IH. apply (effects_ok_resume (fst m) (Reject (snd m))). exact Hw.
Qed.

Lemma effects_ok_step (w : World) (e : Event) :
  Forall effect_ok (effects w) -> Forall effect_ok (effects (step w e)).
Proof.
  intros Hw. unfold step, run_microtasks. apply effects_ok_fold_resume.
  simpl. apply effects_ok_task. exact Hw.
Qed.

Lemma effects_ok_run (es : list Event) (w : World) :
  Forall effect_ok (effects w) -> Forall effect_ok (effects (run w es)).
Proof.
  revert w. induction es as [| e es IH]; intros w Hw; simpl; [exact Hw |].
  apply IH. apply effects_ok_step. exact Hw.
Qed.

Lemma newFiles_from_status (index : N) (len : nat) (fs : list (N * File))
    (baseTitle : string) (description initialError : option string) :
  Forall (fun f => status f = (if truthy initialError then error else pending)
                   /\ error_msg f = initialError
                   /\ progress f = 0%Z)
         (newFiles_from index len fs baseTitle description initialError).
Proof.
  revert index. induction fs as [| f fs IH]; intros index; simpl;
    constructor; [simpl; auto | apply IH].
Qed.

Lemma newFiles_from_length (index : N) (len : nat) (fs : list (N * File))
    (baseTitle : string) (description initialError : option string) :
  List.length
    (newFiles_from index len fs baseTitle description initialError)
  = List.length fs.
Proof.
  revert index. induction fs as [| f fs IH]; intros index; simpl;
    [reflexivity | now rewrite IH].
Qed.

(** C9. When [addFiles] is given a non-empty error message, every item it
    creates is in [error] with that message, one per file, appended to the
    queue;
    the call does not activate the orchestrator and starts nothing. The
    drive loop never selects an item whose status is [error], and in every
    run each item handed to the Transfer Client was [pending] when it was
    picked, so no item in [error] is ever dispatched. *)
Theorem precomputed_error_never_dispatched
    (fs : list (N * File)) (baseTitle : string)
    (description : option string) (e : string) (w : World) :
  truthy (Some e) = true ->
  Forall (fun f => status f = error /\ error_msg f = Some e)
         (newFiles fs baseTitle description (Some e))
  /\ List.length (newFiles fs baseTitle description (Some e))
       = List.length fs
  /\ addFiles fs baseTitle description (Some e) w
       = with_store w
           (set_files (store w)
              (files (store w)
               ++ newFiles fs baseTitle description (Some e)))
  /\ isUploading (store (addFiles fs baseTitle description (Some e) w))
       = isUploading (store w)
  /\ inflight (addFiles fs baseTitle description (Some e) w)
       = inflight w
  /\ effects (addFiles fs baseTitle description (Some e) w)
       = effects w
  /\ (forall (s : UploadState) (f : UploadFile),
        status f = error -> fileToUpload s <> Some f)
  /\ (forall (w0 : World) (f : UploadFile),
        status f = error ->
        dispatched f (processQueue w0) -> dispatched f w0)
  /\ (forall (es : list Event) (f : UploadFile),
        status f = error -> ~ dispatched f (run initial_world es)).
Proof.
  intros He.
  assert (Hadd : addFiles fs baseTitle description (Some e) w
                 = with_store w
                     (set_files (store w)
                        (files (store w)
                         ++ newFiles fs baseTitle description (Some e)))).
  { unfold addFiles. rewrite He. reflexivity. }
  split; [| split; [| split; [exact Hadd |]]];
    [| | rewrite Hadd; do 3 (split; [reflexivity |]); split; [| split]].
  - unfold newFiles.
    eapply Forall_impl; [| apply newFiles_from_status].
    cbv beta. intros f (Hs & Hm & _). rewrite Hs, He. auto.
  - apply newFiles_from_length.
  - intros s f Hs Hsel. apply fileToUpload_pending in Hsel.
    destruct Hsel as [_ Hp]. congruence.
  - intros w0 f Hs Hd. unfold dispatched in *.
    unfold processQueue in Hd.
    destruct (isUploading (store w0)); simpl in Hd; [| exact Hd].
    destruct (fileToUpload (store w0)) as [g |] eqn:Hsel; [| exact Hd].
    destruct (file g) as [fl |]; [| exact Hd].
    assert (Hfv : forall msg, In (CallUploadPDF f)
                                 (effects (fail_validation g msg w0)) ->
                              In (CallUploadPDF f) (effects w0)).
    { intros msg. unfold fail_validation.
      case_if;
        simpl; [| auto].
      intros H. apply in_app_or in H. destruct H as [H | [H | []]];
        [exact H | discriminate]. }
    destruct (MAX_FILE_SIZE <? fsize fl)%N; [eapply Hfv; exact Hd |].
    destruct (String.eqb (ftype fl) "application/pdf"); simpl in Hd;
      [| eapply Hfv; exact Hd].
    apply fileToUpload_pending in Hsel. destruct Hsel as [_ Hp].
    assert (Hg : In (CallUploadPDF f) (effects w0) \/ f = g).
    { unfold uploadPDF in Hd.
      destruct (access_token _) as [[| c t] |]; simpl in Hd;
        repeat (apply in_app_or in Hd; destruct Hd as [Hd | Hd]);
        auto;
        destruct Hd as [Hd | []]; try discriminate;
        injection Hd as <-; auto. }
    destruct Hg as [Hg | ->]; [exact Hg | congruence].
  - intros es f Hs Hd.
    assert (Hok : Forall effect_ok (effects (run initial_world es))).
    { apply effects_ok_run. constructor. }
    rewrite Forall_forall in Hok. apply Hok in Hd. simpl in Hd. congruence.
Qed.

Lemma precomputed_error_never_dispatched_witness :
  map status (files (store (addFiles [(1000%N, big_pdf)] "big" None
                              (Some (size_error 15728640)) initial_world)))
    = [error]
  /\ isUploading (store (addFiles [(1000%N, big_pdf)] "big" None
                            (Some (size_error 15728640)) initial_world))
       = false.
Proof.
  destruct (precomputed_error_never_dispatched
              [(1000%N, big_pdf)] "big" None (size_error 15728640)
              initial_world
              eq_refl)
    as (_ & _ & H & _).
  rewrite H. split; reflexivity.
Defined.

(** ** Queue order *)

Lemma idents_updateFileStatus (i : string) (st : Status) (p : Z)
    (err res : option string) (s : UploadState) :
  map ident (files (updateFileStatus i st p err res s)) = map ident (files s).
Proof.
  simpl. rewrite map_map. apply map_ext. intros f.
  destruct (String.eqb (id f) i); reflexivity.
Qed.

Lemma idents_fail_validation (f : UploadFile) (msg : string) (w : World) :
  idents (fail_validation f msg w) = idents w.
Proof.
  unfold fail_validation, idents.
  case_if;
    apply idents_updateFileStatus.
Qed.

Lemma idents_processQueue (w : World) : idents (processQueue w) = idents w.
Proof.
  unfold processQueue.
  destruct (isUploading (store w)); simpl; [| reflexivity].
  destruct (fileToUpload (store w)) as [f |]; [| reflexivity].
  destruct (file f) as [fl |]; [| reflexivity].
  destruct (MAX_FILE_SIZE <? fsize fl)%N; [apply idents_fail_validation |].
  destruct (String.eqb (ftype fl) "application/pdf"); simpl;
    [| apply idents_fail_validation].
  unfold uploadPDF, idents.
  destruct (access_token _) as [[| c t] |]; simpl;
    apply (idents_updateFileStatus (id f) uploading 0 None None
             (set_currentUploadingId (store w) (Some (id f)))).
Qed.

Lemma idents_resume (f : UploadFile) (o : Outcome) (w : World) :
  idents (processQueue_resume f o w) = idents w.
Proof.
  unfold idents. destruct o; simpl;
    case_if;
    simpl; rewrite map_map; apply map_ext; intros g;
    destruct (String.eqb (id g) (id f)); reflexivity.
Qed.

Lemma idents_startUpload (w : World) : idents (startUpload w) = idents w.
Proof.
  unfold startUpload. destruct (isUploading (store w)); simpl;
    [reflexivity | now rewrite idents_processQueue].
Qed.

Lemma idents_addFiles (fs : list (N * File)) (baseTitle : string)
    (description initialError : option string) (w : World) :
  idents (addFiles fs baseTitle description initialError w)
  = idents w
    ++ map ident (newFiles fs baseTitle description initialError).
Proof.
  unfold addFiles.
  case_if;
    [rewrite idents_startUpload |]; unfold idents; simpl; apply map_app.
Qed.

Lemma idents_retryFile (i : string) (w : World) :
  idents (retryFile i w) = idents w.
Proof.
  unfold retryFile.
  case_if;
    [rewrite idents_startUpload |]; unfold idents; simpl;
    rewrite map_map; apply map_ext; intros f; unfold retry_item;
    destruct (String.eqb (id f) i); reflexivity.
Qed.

Lemma idents_task (e : Event) (w : World) :
  removes e = false ->
  idents (task e w) = idents w ++ map ident (created_by e).
Proof.
  destruct e; simpl; intros Hr; try discriminate;
    try (rewrite app_nil_r).
  - apply idents_addFiles.
  - apply idents_startUpload.
  - reflexivity.
  - apply idents_retryFile.
  - reflexivity.
  - destruct (nth_error (inflight w) k) as [f |]; [| reflexivity].
    unfold idents. apply idents_updateFileStatus.
  - destruct (nth_error (inflight w) k) as [f |]; [| reflexivity].
    now rewrite idents_resume.
  - destruct (nth_error (timers w) k); [| reflexivity].
    now rewrite idents_processQueue.
Qed.

Lemma idents_fold_resume (l : list (UploadFile * string)) (w : World) :
  idents (fold_left
            (fun w m => processQueue_resume (fst m) (Reject (snd m)) w) l w)
  = idents w.
Proof.
  revert w. induction l as [| m l IH]; intros w; simpl; [reflexivity |].
  rewrite IH. apply (idents_resume (fst m) (Reject (snd m))).
Qed.



Lemma newFiles_from_nth (index : N) (len : nat) (fs : list (N * File))
    (baseTitle : string) (description initialError : option string)
    (k : nat) (now : N) (f : File) :
  nth_error fs k = Some (now, f) ->
  nth_error (newFiles_from index len fs baseTitle description
                           initialError) k
  = Some (mkUploadFile
            (string_of_N now ++ "-" ++ string_of_N (index + N.of_nat k))
            (Some f)
            (if Nat.eqb len 1 then baseTitle
             else (baseTitle ++ " - Part "
                   ++ string_of_N (index + N.of_nat k + 1))%string)
            description
            (if truthy initialError then error else pending)
            0 initialError None).
Proof.
  revert index k. induction fs as [| g fs IH]; intros index k Hk.
  - destruct k; discriminate.
  - destruct k as [| k]; simpl in *.
    + injection Hk as ->. now rewrite N.add_0_r.
    + rewrite (IH (index + 1)%N k Hk).
      replace (index + 1 + N.of_nat k)%N
        with (index + N.pos (Pos.of_succ_nat k))%N by lia.
      reflexivity.
Qed.




(** ** One transfer at a time *)

(** C2 fails on [pause_restart_trace]: before the pause the first item is
    [uploading] and the second [pending]; [pauseUpload] clears the flag
    while the transfer stays in flight, so [startUpload] enters the drive
    loop again and dispatches the second item. Two items are [uploading]
    and two transfers are in flight. *)
Theorem pause_restart_two_uploading :
  map status
      (files (store (run initial_world (firstn 3 pause_restart_trace))))
    = [uploading; pending]
  /\ map status (files (store (run initial_world pause_restart_trace)))
       = [uploading; uploading]
  /\ count_status uploading (store (run initial_world pause_restart_trace))
       = 2
  /\ map id (inflight (run initial_world pause_restart_trace))
       = ["1000-0"; "1001-0"]
  /\ requests_sent (run initial_world pause_restart_trace) = 2.
Proof. repeat split. Qed.

(** ** Identifiers *)

Lemma string_of_N_inj (n m : N) : string_of_N n = string_of_N m -> n = m.
Proof.
  unfold string_of_N. intros H. apply DecimalN.Unsigned.to_uint_inj.
  assert (E : Some (N.to_uint n) = Some (N.to_uint m)).
  { rewrite <- !NilEmpty.usu. now rewrite H. }
  now injection E.
Qed.

Lemma string_of_N_no_dash (n : N) : has_dash (string_of_N n) = false.
Proof.
  unfold string_of_N. induction (N.to_uint n); simpl; auto.
Qed.

Lemma dash_split (s1 s2 t1 t2 : string) :
  has_dash s1 = false -> has_dash s2 = false ->
  (s1 ++ "-" ++ t1)%string = (s2 ++ "-" ++ t2)%string ->
  s1 = s2 /\ t1 = t2.
Proof.
  revert s2. induction s1 as [| c s1 IH]; intros [| d s2] H1 H2 E;
    simpl in *.
  - injection E as E. auto.
  - injection E as Ec _. subst d. discriminate H2.
  - injection E as Ec _. subst c. discriminate H1.
  - injection E as Ec E. subst d.
    apply orb_false_iff in H1. apply orb_false_iff in H2.
    destruct (IH s2) as [-> ->]; tauto.
Qed.

(** The id template separates items by clock reading and by index. *)
Lemma id_template_inj (now1 i1 now2 i2 : N) :
  (string_of_N now1 ++ "-" ++ string_of_N i1)%string
  = (string_of_N now2 ++ "-" ++ string_of_N i2)%string ->
  now1 = now2 /\ i1 = i2.
Proof.
  intros E. apply dash_split in E; try apply string_of_N_no_dash.
  destruct E as [E1 E2]. split; apply string_of_N_inj; assumption.
Qed.

Lemma id_of_stamp_inj (x y : N * N) : id_of_stamp x = id_of_stamp y -> x = y.
Proof.
  destruct x as [n k], y as [n' k']. unfold id_of_stamp. simpl. intros E.
  apply id_template_inj in E. destruct E as [-> ->]. reflexivity.
Qed.

Lemma NoDup_map_injective {A B} (g : A -> B) (l : list A) :
  (forall x y, g x = g y -> x = y) -> NoDup l -> NoDup (map g l).
Proof.
  intros Hg Hl. induction Hl as [| x l Hx Hl IH]; simpl; constructor;
    [| exact IH].
  intros H. apply in_map_iff in H. destruct H as [y [E Hy]].
  apply Hg in E. subst y. contradiction.
Qed.

(** The ids of the items of a call are the stamps of its files. *)
Lemma newFiles_from_ids (index : N) (len : nat) (fs : list (N * File))
    (baseTitle : string) (description initialError : option string) :
  map id (newFiles_from index len fs baseTitle description initialError)
  = map id_of_stamp (stamps_from index fs).
Proof.
  revert index. induction fs as [| nf fs IH]; intros index; simpl;
    [reflexivity |].
  now rewrite IH.
Qed.

Lemma stamps_from_index (index : N) (fs : list (N * File)) (st : N * N) :
  In st (stamps_from index fs) -> (index <= snd st)%N.
Proof.
  revert index. induction fs as [| nf fs IH]; intros index; simpl;
    [tauto |].
  intros [<- | H]; [simpl; lia |]. apply IH in H. lia.
Qed.

Lemma stamps_from_NoDup (index : N) (fs : list (N * File)) :
  NoDup (stamps_from index fs).
Proof.
  revert index. induction fs as [| nf fs IH]; intros index; simpl;
    constructor; [| apply IH].
  intros H. apply stamps_from_index in H. simpl in H. lia.
Qed.

(** Within one call the ids are pairwise distinct, whatever the clock
    readings: the positions differ. *)
Lemma newFiles_ids_NoDup (fs : list (N * File)) (baseTitle : string)
    (description initialError : option string) :
  NoDup (map id (newFiles fs baseTitle description initialError)).
Proof.
  unfold newFiles. rewrite newFiles_from_ids.
  apply NoDup_map_injective; [exact id_of_stamp_inj | apply stamps_from_NoDup].
Qed.

(** C4 fails on [same_ms_trace]: two calls of [addFiles] that read the
    same millisecond give their first items the same id. On [reuse_trace]
    the id of a removed item is given to the next item created. *)
Theorem same_millisecond_ids_collide :
  map id (files (store (run initial_world same_ms_trace)))
    = ["1000-0"; "1000-0"]
  /\ map file (files (store (run initial_world same_ms_trace)))
       = [Some a_pdf; Some b_pdf]
  /\ ~ NoDup (map id (files (store (run initial_world same_ms_trace))))
  /\ map id (files (store (run initial_world (firstn 1 reuse_trace))))
       = ["1000-0"]
  /\ files (store (run initial_world (firstn 2 reuse_trace))) = []
  /\ map id (files (store (run initial_world reuse_trace))) = ["1000-0"].
Proof.
  repeat split.
  intros H. inversion H as [| x l Hnin _]; subst. apply Hnin. left.
  reflexivity.
Qed.

(** * Further properties of the store *)

(** ** Selection of the next item *)

Lemma first_pending_split (l : list UploadFile) :
  match hd_error (filter is_pending l) with
  | Some f =>
      exists l1 l2, l = l1 ++ f :: l2 /\ status f = pending
                    /\ Forall (fun g => status g <> pending) l1
  | None => Forall (fun g => status g <> pending) l
  end.
Proof.
  induction l as [| g l IH]; simpl; [constructor |].
  unfold is_pending at 1. destruct (Status_eqb (status g) pending) eqn:E.
  - simpl. exists [], l. apply Status_eqb_eq in E. auto.
  - apply Status_eqb_neq in E.
    destruct (hd_error (filter is_pending l)) as [f |].
    + destruct IH as (l1 & l2 & -> & Hp & Hall).
      exists (g :: l1), l2. auto.
    + constructor; assumption.
Qed.

(** X1. The drive loop picks the first [pending] item in queue order:
    every item before the one picked is not [pending], and nothing is
    picked exactly when no item is [pending]. *)
Theorem fileToUpload_is_first_pending (s : UploadState) :
  (forall f, fileToUpload s = Some f ->
             exists l1 l2, files s = l1 ++ f :: l2 /\ status f = pending
                           /\ Forall (fun g => status g <> pending) l1)
  /\ (fileToUpload s = None
      <-> Forall (fun g => status g <> pending) (files s)).
Proof.
  unfold fileToUpload, pendingFiles.
  pose proof (first_pending_split (files s)) as H.
  destruct (hd_error (filter is_pending (files s))) as [f |] eqn:E.
  - split.
    + intros f' Hf'. injection Hf' as <-. exact H.
    + split; [discriminate |]. intros Hall.
      destruct H as (l1 & l2 & Hl & Hp & _). rewrite Hl in Hall.
      apply Forall_app in Hall. destruct Hall as [_ Hall].
      inversion Hall; subst. contradiction.
  - split; [discriminate |]. split; auto.
Qed.

(** ** Status badges *)

(** X2. The four status counts shown by the queue views add up to the
    number of items: every item is counted under exactly one badge. *)
Theorem status_counts_partition (s : UploadState) :
  pendingCount s + uploadingCount s + successCount s + errorCount s
  = List.length (files s).
Proof.
  unfold pendingCount, uploadingCount, successCount, errorCount,
    count_status.
  induction (files s) as [| f l IH]; simpl; [reflexivity |].
  destruct (status f); simpl; lia.
Qed.

(** ** Removing and clearing *)

Lemma filter_idem {A} (p : A -> bool) (l : list A) :
  filter p (filter p l) = filter p l.
Proof.
  induction l as [| x l IH]; simpl; [reflexivity |].
  destruct (p x) eqn:E; simpl; [rewrite E, IH |]; auto.
Qed.

Lemma filter_swap {A} (p q : A -> bool) (l : list A) :
  filter p (filter q l) = filter q (filter p l).
Proof.
  induction l as [| x l IH]; simpl; [reflexivity |].
  destruct (p x) eqn:Ep, (q x) eqn:Eq; simpl;
    rewrite ?Ep, ?Eq, IH; reflexivity.
Qed.

(** X3. Removing and clearing compose freely: doing either twice is the
    same as doing it once, and removals by id and [clearCompleted] can be
    done in any order with the same result. *)
Theorem remove_and_clear_compose (i j : string) (w : World) :
  clearCompleted (clearCompleted w) = clearCompleted w
  /\ removeFile i (removeFile i w) = removeFile i w
  /\ removeFile i (removeFile j w) = removeFile j (removeFile i w)
  /\ removeFile i (clearCompleted w) = clearCompleted (removeFile i w).
Proof.
  unfold clearCompleted, removeFile, on_store, with_store, set_files.
  simpl. repeat split.
  - now rewrite filter_idem.
  - now rewrite filter_idem.
  - f_equal. f_equal. apply filter_swap.
  - f_equal. f_equal. apply filter_swap.
Qed.

(** ** Restoring a stored state *)


(** ** Titles *)

Lemma string_length_append (s t : string) :
  String.length (s ++ t)%string = String.length s + String.length t.
Proof. induction s as [| c s IH]; simpl; [reflexivity | now rewrite IH]. Qed.

Lemma string_append_cancel_l (s t1 t2 : string) :
  (s ++ t1)%string = (s ++ t2)%string -> t1 = t2.
Proof.
  induction s as [| c s IH]; simpl; intros H; [exact H |].
  injection H as H. auto.
Qed.

Lemma strip_pdf_ext_cases (s : string) :
  strip_pdf_ext s = s
  \/ exists ext, (ext = ".pdf" \/ ext = ".PDF")
                 /\ s = (strip_pdf_ext s ++ ext)%string.
Proof.
  induction s as [| c s IH]; [left; reflexivity |].
  cbn [strip_pdf_ext].
  destruct (String.eqb_spec (String c s) ".pdf") as [E | _].
  { right. exists ".pdf". simpl. auto. }
  destruct (String.eqb_spec (String c s) ".PDF") as [E | _].
  { right. exists ".PDF". simpl. auto. }
  simpl. destruct IH as [-> | (ext & Hext & IH)]; [left; reflexivity |].
  right. exists ext. split; [exact Hext |]. simpl. now rewrite <- IH.
Qed.

Lemma strip_pdf_ext_app (base ext : string) :
  ext = ".pdf" \/ ext = ".PDF" -> strip_pdf_ext (base ++ ext) = base.
Proof.
  intros Hext. induction base as [| c base IH].
  - destruct Hext as [-> | ->]; reflexivity.
  - cbn [String.append strip_pdf_ext].
    assert (Hlen : 4 <= String.length (base ++ ext)%string).
    { rewrite string_length_append. destruct Hext as [-> | ->]; simpl; lia. }
    destruct (String.eqb_spec (String c (base ++ ext)) ".pdf") as [E | _].
    { apply (f_equal String.length) in E. simpl in E. lia. }
    destruct (String.eqb_spec (String c (base ++ ext)) ".PDF") as [E | _].
    { apply (f_equal String.length) in E. simpl in E. lia. }
    simpl. now rewrite IH.
Qed.

(** X5. The title the dialog derives from a file name is the name without
    a final ".pdf" or ".PDF", and the name itself when there is no such
    extension or nothing would be left; it is empty only for an empty
    name. *)
Theorem derive_title_spec (name : string) :
  (derive_title name = name
   \/ exists ext, (ext = ".pdf" \/ ext = ".PDF")
                  /\ name = (derive_title name ++ ext)%string)
  /\ (derive_title name = EmptyString -> name = EmptyString)
  /\ (forall base ext,
        base <> EmptyString -> ext = ".pdf" \/ ext = ".PDF" ->
        derive_title (base ++ ext) = base)
  /\ (forall ext, ext = ".pdf" \/ ext = ".PDF" -> derive_title ext = ext).
Proof.
  unfold derive_title. repeat split.
  - pose proof (strip_pdf_ext_cases name) as H.
    destruct (strip_pdf_ext name) as [| c t]; simpl; [auto | exact H].
  - destruct (strip_pdf_ext name) as [| c t] eqn:E; simpl;
      [auto | discriminate].
  - intros base ext Hb Hext. rewrite (strip_pdf_ext_app base ext Hext).
    destruct base; [contradiction | reflexivity].
  - intros ext [-> | ->]; reflexivity.
Qed.

Lemma newFiles_from_title (index : N) (len : nat) (fs : list (N * File))
    (baseTitle : string) (description initialError : option string)
    (t : string) :
  Nat.eqb len 1 = false ->
  In t (map title (newFiles_from index len fs baseTitle description
                                 initialError)) ->
  exists k, (index <= k)%N
            /\ t = (baseTitle ++ " - Part " ++ string_of_N (k + 1))%string.
Proof.
  intros Hlen. revert index. induction fs as [| f fs IH]; intros index;
    simpl; [tauto |].
  rewrite Hlen. intros [<- | H].
  - exists index. split; [lia | reflexivity].
  - apply IH in H. destruct H as [k [Hk ->]]. exists k. split; [lia |].
    reflexivity.
Qed.

(** X6. [addFiles] creates one item per file, in order: the item for the
    file at position [k] carries that file, the id made of the clock
    reading taken for that file and of [k], and the title [baseTitle] when
    the call has a single file and [baseTitle - Part k+1] otherwise. The
    ids created by one call are pairwise distinct, whatever the readings,
    and so are the titles. *)
Theorem newFiles_by_position (fs : list (N * File)) (baseTitle : string)
    (description initialError : option string) :
  List.length (newFiles fs baseTitle description initialError)
    = List.length fs
  /\ (forall k now f,
        nth_error fs k = Some (now, f) ->
        nth_error (newFiles fs baseTitle description initialError) k
        = Some (mkUploadFile
                  (string_of_N now ++ "-" ++ string_of_N (N.of_nat k))
                  (Some f)
                  (if Nat.eqb (List.length fs) 1 then baseTitle
                   else (baseTitle ++ " - Part "
                         ++ string_of_N (N.of_nat k + 1))%string)
                  description
                  (if truthy initialError then error else pending)
                  0 initialError None))
  /\ NoDup (map id (newFiles fs baseTitle description initialError))
  /\ NoDup (map title (newFiles fs baseTitle description initialError)).
Proof.
  split; [apply newFiles_from_length | split; [| split]].
  - intros k now f Hk. unfold newFiles.
    now rewrite (newFiles_from_nth 0 _ fs baseTitle description
                   initialError k now f Hk).
  - apply newFiles_ids_NoDup.
  - unfold newFiles. destruct (Nat.eqb (List.length fs) 1) eqn:Hlen.
    + apply Nat.eqb_eq in Hlen. destruct fs as [| f [| g fs]];
        try discriminate. simpl. repeat constructor. simpl. tauto.
    + generalize 0%N as index. revert Hlen.
      generalize (List.length fs) as len.
      induction fs as [| f fs IH]; intros len Hlen index; simpl;
        constructor.
      * rewrite Hlen. intros H.
        apply (newFiles_from_title _ _ _ _ _ _ _ Hlen) in H.
        destruct H as [k [Hk E]].
        apply string_append_cancel_l in E.
        apply (string_append_cancel_l " - Part ") in E.
        apply string_of_N_inj in E. lia.
      * apply IH. exact Hlen.
Qed.

(** ** The upload dialog *)

Lemma errorMessage_cases (f : File) :
  ((MAX_FILE_SIZE <? fsize f)%N = true
   /\ errorMessage f = size_error (fsize f))
  \/ ((MAX_FILE_SIZE <? fsize f)%N = false
      /\ String.eqb (ftype f) "application/pdf" = false
      /\ errorMessage f = type_error (ftype f))
  \/ ((MAX_FILE_SIZE <? fsize f)%N = false
      /\ String.eqb (ftype f) "application/pdf" = true
      /\ fsize f = 0%N /\ errorMessage f = empty_error)
  \/ ((MAX_FILE_SIZE <? fsize f)%N = false
      /\ String.eqb (ftype f) "application/pdf" = true
      /\ fsize f <> 0%N /\ errorMessage f = EmptyString).
Proof.
  unfold errorMessage.
  destruct (MAX_FILE_SIZE <? fsize f)%N; [auto |].
  destruct (String.eqb (ftype f) "application/pdf"); simpl; [| auto].
  destruct (N.eqb_spec (fsize f) 0); auto 10.
Qed.

(** Turn the boolean checks among the hypotheses into propositions. *)
Ltac norm_checks :=
  repeat match goal with
         | H : (_ <? _)%N = true |- _ => apply N.ltb_lt in H
         | H : (_ <? _)%N = false |- _ => apply N.ltb_ge in H
         | H : String.eqb _ _ = true |- _ => apply String.eqb_eq in H
         | H : String.eqb _ _ = false |- _ => apply String.eqb_neq in H
         end.

Lemma size_error_shape (n : N) :
  size_error n <> EmptyString /\ size_error n <> empty_error.
Proof. unfold size_error. simpl. split; discriminate. Qed.

Lemma type_error_shape (ty : string) :
  type_error ty <> EmptyString /\ type_error ty <> empty_error.
Proof. unfold type_error. simpl. split; discriminate. Qed.



Lemma idents_upload_one (now : N) (f : File) (w : World) :
  idents (upload_one now f w)
  = idents w
    ++ [((string_of_N now ++ "-0")%string, Some f, derive_title (fname f),
         None)].
Proof.
  unfold upload_one.
  destruct (truthy (Some (errorMessage f))); rewrite idents_addFiles;
    reflexivity.
Qed.

Lemma idents_handleFilesUpload (fs : list (N * File)) (w : World) :
  idents (handleFilesUpload fs w)
  = idents w
    ++ map (fun nf => ((string_of_N (fst nf) ++ "-0")%string, Some (snd nf),
                       derive_title (fname (snd nf)), None))
           fs.
Proof.
  unfold handleFilesUpload. revert w.
  induction fs as [| nf fs IH]; intros w; simpl.
  - now rewrite app_nil_r.
  - rewrite IH, idents_upload_one, <- app_assoc. reflexivity.
Qed.

(** X8. Files dropped on the dialog are queued in the order given, one
    item per file, after the items already there. On an empty queue their
    ids are pairwise distinct exactly when the clock readings of the
    [addFiles] calls are pairwise distinct. *)
Theorem dialog_ids_distinct_iff (fs : list (N * File)) (w : World) :
  idents (handleFilesUpload fs w)
  = idents w
    ++ map (fun nf => ((string_of_N (fst nf) ++ "-0")%string, Some (snd nf),
                       derive_title (fname (snd nf)), None))
           fs
  /\ (files (store w) = [] ->
      (NoDup (map id (files (store (handleFilesUpload fs w))))
       <-> NoDup (map fst fs))).
Proof.
  split; [apply idents_handleFilesUpload |].
  intros Hempty.
  assert (E : map id (files (store (handleFilesUpload fs w)))
              = map (fun n => (string_of_N n ++ "-0")%string) (map fst fs)).
  { transitivity (map (fun x => fst (fst (fst x)))
                      (idents (handleFilesUpload fs w))).
    - unfold idents. rewrite map_map. reflexivity.
    - rewrite idents_handleFilesUpload. unfold idents. rewrite Hempty.
      simpl. rewrite !map_map. reflexivity. }
  rewrite E. split; [apply NoDup_map_inv |].
  apply NoDup_map_injective. intros x y H.
  apply (id_template_inj x 0 y 0) in H. tauto.
Qed.

(** X9. The check that the drive loop repeats on the item it picked
    agrees with the dialog on size and type, with the same messages, but
    has no check for emptiness: it rejects the file exactly when the
    dialog's message is the size or the type message, and hands every
    other file, an empty one included, to the Transfer Client. *)
Theorem revalidation_agrees_with_dialog
    (w : World) (f : UploadFile) (fl : File) :
  isUploading (store w) = true ->
  fileToUpload (store w) = Some f ->
  file f = Some fl ->
  ((fsize fl <= MAX_FILE_SIZE)%N /\ ftype fl = "application/pdf"
   <-> errorMessage fl = EmptyString \/ errorMessage fl = empty_error)
  /\ ((fsize fl <= MAX_FILE_SIZE)%N /\ ftype fl = "application/pdf" ->
      processQueue w
      = uploadPDF f
          (on_store (updateFileStatus (id f) uploading 0 None None)
             (on_store (fun s => set_currentUploadingId s (Some (id f))) w)))
  /\ (~ ((fsize fl <= MAX_FILE_SIZE)%N /\ ftype fl = "application/pdf") ->
      processQueue w = fail_validation f (errorMessage fl) w).
Proof.
  intros Hact Hsel Hfile.
  unfold processQueue. rewrite Hact, Hsel, Hfile. simpl.
  destruct (errorMessage_cases fl)
    as [(Hs & E) | [(Hs & Ht & E) | [(Hs & Ht & Hz & E) | (Hs & Ht & Hz & E)]]];
    rewrite E, Hs; try rewrite Ht; simpl; norm_checks;
    (split; [split |]).
  - intros [H _]. lia.
  - destruct (size_error_shape (fsize fl)). intros [H' | H'];
      contradiction.
  - split; [intros [H _]; lia | reflexivity].
  - intros [_ H]. contradiction.
  - destruct (type_error_shape (ftype fl)). intros [H' | H'];
      contradiction.
  - split; [intros [_ H]; contradiction | reflexivity].
  - auto.
  - auto.
  - split; [reflexivity | intros H; tauto].
  - auto.
  - auto.
  - split; [reflexivity | intros H; tauto].
Qed.

Lemma revalidation_agrees_with_dialog_witness :
  processQueue world_oversized
  = fail_validation
      (mkUploadFile "1000-0" (Some big_pdf) "big" None pending 0 None None)
      (size_error 15728640) world_oversized.
Proof.
  destruct (revalidation_agrees_with_dialog
              world_oversized
              (mkUploadFile "1000-0" (Some big_pdf) "big" None pending 0
                            None None)
              big_pdf eq_refl eq_refl eq_refl)
    as (_ & _ & H).
  apply H. intros [Hsz _]. vm_compute in Hsz. apply Hsz. reflexivity.
Defined.

(** ** Properties of the items kept by every operation *)

Section ItemInvariant.

Variable P : UploadFile -> Prop.
Hypothesis P_error :
  forall f msg, P f -> P (with_status error 0 (Some msg) None f).
Hypothesis P_uploading :
  forall f p, P f -> P (with_status uploading p None None f).
Hypothesis P_success :
  forall f res, P f -> P (with_status success 100 None (Some res) f).
Hypothesis P_retry :
  forall f, P f -> P (with_status pending 0 None (result f) f).
Hypothesis P_new :
  forall fs baseTitle description initialError,
    Forall P (newFiles fs baseTitle description initialError).

Let items_ok (w : World) : Prop := Forall P (files (store w)).

Lemma items_updateFileStatus (i : string) (st : Status) (p : Z)
    (err res : option string) (w : World) :
  (forall f, P f -> P (with_status st p err res f)) ->
  items_ok w -> items_ok (on_store (updateFileStatus i st p err res) w).
Proof.
  intros Hst Hw. unfold items_ok in *. simpl. apply Forall_map.
  eapply Forall_impl; [| exact Hw]. intros f Hf. simpl.
  destruct (String.eqb (id f) i); [apply (Hst f Hf) | exact Hf].
Qed.

Lemma items_fail_validation (f : UploadFile) (msg : string) (w : World) :
  items_ok w -> items_ok (fail_validation f msg w).
Proof.
  intros Hw. unfold fail_validation.
  assert (H : items_ok (on_store (updateFileStatus (id f) error 0
                                    (Some msg) None) w)).
  { apply items_updateFileStatus; auto. }
  case_if; exact H.
Qed.

Lemma items_processQueue (w : World) :
  items_ok w -> items_ok (processQueue w).
Proof.
  intros Hw. unfold processQueue.
  destruct (isUploading (store w)); simpl; [| exact Hw].
  destruct (fileToUpload (store w)) as [f |]; [| exact Hw].
  destruct (file f) as [fl |]; [| exact Hw].
  destruct (MAX_FILE_SIZE <? fsize fl)%N;
    [apply items_fail_validation; exact Hw |].
  destruct (String.eqb (ftype fl) "application/pdf"); simpl;
    [| apply items_fail_validation; exact Hw].
  assert (H : items_ok
                (on_store (updateFileStatus (id f) uploading 0 None None)
                   (on_store
                      (fun s => set_currentUploadingId s (Some (id f)))
                      w))).
  { apply items_updateFileStatus; auto. }
  unfold uploadPDF. destruct (access_token _) as [[| c t] |]; exact H.
Qed.

Lemma items_resume (f : UploadFile) (o : Outcome) (w : World) :
  items_ok w -> items_ok (processQueue_resume f o w).
Proof.
  intros Hw. destruct o as [res | msg]; simpl.
  - assert (H : items_ok (on_store (updateFileStatus (id f) success 100
                                      None (Some res)) w)).
    { apply items_updateFileStatus; auto. }
    case_if; exact H.
  - assert (H : items_ok (on_store (updateFileStatus (id f) error 0
                                      (Some msg) None) w)).
    { apply items_updateFileStatus; auto. }
    case_if; exact H.
Qed.

Lemma items_startUpload (w : World) :
  items_ok w -> items_ok (startUpload w).
Proof.
  intros Hw. unfold startUpload.
  destruct (isUploading (store w)); simpl; [exact Hw |].
  apply items_processQueue. exact Hw.
Qed.

Lemma items_task (e : Event) (w : World) :
  items_ok w -> items_ok (task e w).
Proof.
  intros Hw.
  destruct e as [fs baseTitle descr initialError | i | | | | | i | t
                | k p | k o | k]; simpl.
  - unfold addFiles.
    assert (H : items_ok
                  (on_store
                     (fun s => set_files s
                                 (files s ++ newFiles fs baseTitle
                                                descr initialError))
                     w)).
    { unfold items_ok. simpl. apply Forall_app. split; [exact Hw |].
      apply P_new. }
    case_if; [apply items_startUpload |]; exact H.
  - unfold items_ok in *. simpl. apply Forall_forall. intros f Hf.
    apply filter_In in Hf. rewrite Forall_forall in Hw. apply Hw. tauto.
  - unfold items_ok in *. simpl. apply Forall_forall. intros f Hf.
    apply filter_In in Hf. rewrite Forall_forall in Hw. apply Hw. tauto.
  - constructor.
  - apply items_startUpload. exact Hw.
  - exact Hw.
  - unfold retryFile.
    assert (H : items_ok
                  (on_store
                     (fun s => set_files s (map (retry_item i) (files s)))
                     w)).
    { unfold items_ok in *. simpl. apply Forall_map.
      eapply Forall_impl; [| exact Hw]. intros f Hf. unfold retry_item.
      destruct (String.eqb (id f) i); [apply (P_retry f Hf) | exact Hf]. }
    case_if; [apply items_startUpload |]; exact H.
  - exact Hw.
  - destruct (nth_error (inflight w) k) as [f |]; [| exact Hw].
    apply items_updateFileStatus; auto.
  - destruct (nth_error (inflight w) k) as [f |]; [| exact Hw].
    apply items_resume. exact Hw.
  - destruct (nth_error (timers w) k); [| exact Hw].
    apply items_processQueue. exact Hw.
Qed.

Lemma items_fold_resume (l : list (UploadFile * string)) (w : World) :
  items_ok w ->
  items_ok (fold_left
              (fun w m => processQueue_resume (fst m) (Reject (snd m)) w)
              l w).
Proof.
  revert w. induction l as [| m l IH]; intros w Hw; simpl; [exact Hw |].
  apply IH. apply (items_resume (fst m) (Reject (snd m))). exact Hw.
Qed.

Lemma items_step (w : World) (e : Event) :
  items_ok w -> items_ok (step w e).
Proof.
  intros Hw. unfold step, run_microtasks. apply items_fold_resume.
  exact (items_task e w Hw).
Qed.

Lemma items_run (es : list Event) (w : World) :
  items_ok w -> items_ok (run w es).
Proof.
  revert w. induction es as [| e es IH]; intros w Hw; simpl; [exact Hw |].
  apply IH. apply items_step. exact Hw.
Qed.

End ItemInvariant.

Lemma newFiles_fields_ok (fs : list (N * File)) (baseTitle : string)
    (description initialError : option string) :
  Forall fields_ok (newFiles fs baseTitle description initialError).
Proof.
  unfold newFiles. generalize (List.length fs) as len.
  generalize 0%N as index.
  induction fs as [| f fs IH]; intros index len; simpl; constructor;
    [| apply IH].
  unfold fields_ok. simpl. split; [discriminate |].
  destruct initialError as [[| c m] |]; simpl; repeat split; discriminate.
Qed.

(** X10. In every state the store can reach, the fields of an item fit its
    status: a [pending] item has progress 0 and no message, an [uploading]
    item has neither message nor result, a [success] item has progress
    100, a result and no message, an [error] item has progress 0, a message
    and no result; and every item has its file. *)
Theorem reachable_fields_fit_status (es : list Event) :
  Forall fields_ok (files (store (run initial_world es))).
Proof.
  apply (items_run fields_ok); try (constructor; fail);
    try apply newFiles_fields_ok;
    unfold fields_ok; simpl; intros f; intros;
    repeat split; try tauto; discriminate.
Qed.

(** ** Work left for the drive loop *)

Lemma fields_ok_file (l : list UploadFile) (f : UploadFile) :
  Forall fields_ok l -> In f l -> file f <> None.
Proof.
  intros Hl Hf. rewrite Forall_forall in Hl. apply Hl in Hf.
  destruct Hf as [Hf _]. exact Hf.
Qed.

Lemma length_remove_nth {A} (k : nat) (l : list A) (x : A) :
  nth_error l k = Some x -> S (List.length (remove_nth k l)) = List.length l.
Proof.
  revert k. induction l as [| y l IH]; intros [| k] H; simpl in *;
    try discriminate; [reflexivity |].
  now rewrite (IH k H).
Qed.

Lemma processQueue_idle (w : World) :
  isUploading (store w) = false -> processQueue w = w.
Proof. intros H. unfold processQueue. now rewrite H. Qed.

(** An activation of the drive loop on an active orchestrator either
    drains the queue, which ends the activity, or leaves one more
    continuation behind. *)
Lemma processQueue_work (w : World) :
  Forall fields_ok (files (store w)) ->
  isUploading (store w) = true ->
  work (processQueue w)
  = work w + (if isUploading (store (processQueue w)) then 1 else 0)
  /\ (currentUploadingId (store (processQueue w)) <> None ->
      isUploading (store (processQueue w)) = true).
Proof.
  intros Hok Hact. unfold processQueue. rewrite Hact. simpl.
  destruct (fileToUpload (store w)) as [f |] eqn:Hsel.
  2:{ simpl. split; [unfold work, continuations; simpl; lia |].
      intros H. contradiction. }
  apply fileToUpload_pending in Hsel. destruct Hsel as [Hin _].
  pose proof (fields_ok_file _ _ Hok Hin) as Hfile.
  destruct (file f) as [fl |]; [clear Hfile | contradiction].
  assert (Hfv : forall msg,
             work (fail_validation f msg w)
             = work w
               + (if isUploading (store (fail_validation f msg w))
                  then 1 else 0)
             /\ (currentUploadingId (store (fail_validation f msg w))
                 <> None ->
                 isUploading (store (fail_validation f msg w)) = true)).
  { intros msg. unfold fail_validation. simpl. rewrite Hact. simpl.
    rewrite Hact. split; [| reflexivity].
    unfold work, continuations. simpl. rewrite length_app. simpl. lia. }
  destruct (MAX_FILE_SIZE <? fsize fl)%N; [apply Hfv |].
  destruct (String.eqb (ftype fl) "application/pdf"); simpl;
    [| apply Hfv].
  unfold uploadPDF. simpl.
  destruct (access_token w) as [[| c t] |]; simpl; rewrite Hact;
    (split; [| reflexivity]);
    unfold work, continuations; simpl; rewrite length_app; simpl; lia.
Qed.

Lemma resume_fields (f : UploadFile) (o : Outcome) (w : World) :
  isUploading (store (processQueue_resume f o w)) = isUploading (store w)
  /\ currentUploadingId (store (processQueue_resume f o w))
     = currentUploadingId (store w)
  /\ inflight (processQueue_resume f o w) = inflight w
  /\ microtasks (processQueue_resume f o w) = microtasks w
  /\ List.length (timers (processQueue_resume f o w))
     = List.length (timers w) + (if isUploading (store w) then 1 else 0)
  /\ (isUploading (store w) = false ->
      timers (processQueue_resume f o w) = timers w
      /\ effects (processQueue_resume f o w) = effects w).
Proof.
  destruct o; simpl; destruct (isUploading (store w)) eqn:E; simpl;
    rewrite ?E, ?length_app; simpl; repeat split; try lia; discriminate.
Qed.

Lemma fold_resume_fields (l : list (UploadFile * string)) (w : World) :
  let w' := fold_left
              (fun w m => processQueue_resume (fst m) (Reject (snd m)) w)
              l w in
  isUploading (store w') = isUploading (store w)
  /\ currentUploadingId (store w') = currentUploadingId (store w)
  /\ inflight w' = inflight w
  /\ microtasks w' = microtasks w
  /\ List.length (timers w')
     = List.length (timers w)
       + (if isUploading (store w) then List.length l else 0)
  /\ (isUploading (store w) = false ->
      timers w' = timers w /\ effects w' = effects w).
Proof.
  revert w. induction l as [| m l IH]; intros w.
  - simpl. repeat split; auto. destruct (isUploading (store w)); lia.
  - cbn [fold_left].
    destruct (resume_fields (fst m) (Reject (snd m)) w)
      as (H1 & H2 & H3 & H4 & H5 & H6).
    destruct (IH (processQueue_resume (fst m) (Reject (snd m)) w))
      as (I1 & I2 & I3 & I4 & I5 & I6).
    cbv zeta. rewrite I1, I2, I3, I4, I5, H1, H2, H3, H4, H5.
    repeat split.
    + destruct (isUploading (store w)); simpl; lia.
    + rewrite H1 in I6. rewrite (proj1 (I6 H)). apply (H6 H).
    + rewrite H1 in I6. rewrite (proj2 (I6 H)). apply (H6 H).
Qed.

Lemma run_microtasks_fields (w : World) :
  microtasks (run_microtasks w) = []
  /\ isUploading (store (run_microtasks w)) = isUploading (store w)
  /\ currentUploadingId (store (run_microtasks w))
     = currentUploadingId (store w)
  /\ inflight (run_microtasks w) = inflight w
  /\ List.length (timers (run_microtasks w))
     = List.length (timers w)
       + (if isUploading (store w) then List.length (microtasks w) else 0)
  /\ (isUploading (store w) = false ->
      timers (run_microtasks w) = timers w
      /\ effects (run_microtasks w) = effects w).
Proof.
  unfold run_microtasks.
  destruct (fold_resume_fields (microtasks w)
              (mkWorld (store w) (access_token w) (inflight w) []
                       (timers w) (effects w)))
    as (H1 & H2 & H3 & H4 & H5 & H6).
  cbv zeta in *. simpl in *. auto 10.
Qed.

Lemma run_microtasks_work (w : World) :
  work (run_microtasks w)
  = (if isUploading (store w) then work w else continuations w)
  /\ microtasks (run_microtasks w) = [].
Proof.
  destruct (run_microtasks_fields w) as (H1 & _ & _ & H4 & H5 & _).
  split; [| exact H1]. unfold work, continuations.
  rewrite H1, H4, H5. simpl.
  destruct (isUploading (store w)); lia.
Qed.

Lemma live_processQueue (w : World) :
  Forall fields_ok (files (store w)) ->
  (currentUploadingId (store w) <> None -> isUploading (store w) = true) ->
  live (processQueue w).
Proof.
  intros Hok Hcur. destruct (isUploading (store w)) eqn:Hact.
  - destruct (processQueue_work w Hok Hact) as [Hw Hc].
    split; [| exact Hc]. intros H. rewrite Hw, H. lia.
  - rewrite (processQueue_idle w Hact). split.
    + rewrite Hact. discriminate.
    + intros H. apply Hcur in H. discriminate.
Qed.

Lemma live_resume (f : UploadFile) (o : Outcome) (w : World) :
  (currentUploadingId (store w) <> None -> isUploading (store w) = true) ->
  live (processQueue_resume f o w).
Proof.
  intros Hcur.
  destruct (resume_fields f o w) as (H1 & H2 & H3 & H4 & H5 & _).
  unfold live, work, continuations. rewrite H1, H2, H3, H4, H5.
  split; [| exact Hcur]. intros ->. lia.
Qed.

Lemma live_startUpload (w : World) :
  Forall fields_ok (files (store w)) -> live w -> live (startUpload w).
Proof.
  intros Hok Hl. unfold startUpload.
  destruct (isUploading (store w)) eqn:Hact; simpl; [exact Hl |].
  apply live_processQueue; [exact Hok | reflexivity].
Qed.

Lemma fields_ok_retry (i : string) (l : list UploadFile) :
  Forall fields_ok l -> Forall fields_ok (map (retry_item i) l).
Proof.
  intros Hl. apply Forall_map. eapply Forall_impl; [| exact Hl].
  intros f Hf. unfold retry_item.
  destruct (String.eqb (id f) i); [| exact Hf].
  destruct Hf as [Hfile _]. unfold fields_ok. simpl. auto.
Qed.

Lemma fields_ok_step (w : World) (e : Event) :
  Forall fields_ok (files (store w)) ->
  Forall fields_ok (files (store (step w e))).
Proof.
  apply (items_step fields_ok); try apply newFiles_fields_ok;
    unfold fields_ok; simpl; intros f; intros;
    repeat split; try tauto; discriminate.
Qed.

Lemma live_task (e : Event) (w : World) :
  Forall fields_ok (files (store w)) -> live w -> live (task e w).
Proof.
  intros Hok Hl.
  destruct e as [fs baseTitle descr initialError | i | | | | | i | t
                | k p | k o | k]; simpl.
  - unfold addFiles. case_if; [| exact Hl].
    apply live_startUpload; [| exact Hl].
    simpl. apply Forall_app. split; [exact Hok | apply newFiles_fields_ok].
  - exact Hl.
  - exact Hl.
  - split; simpl; [discriminate | congruence].
  - apply live_startUpload; assumption.
  - split; simpl; [discriminate | congruence].
  - unfold retryFile. case_if; [| exact Hl].
    apply live_startUpload; [| exact Hl].
    simpl. apply fields_ok_retry. exact Hok.
  - exact Hl.
  - destruct (nth_error (inflight w) k); exact Hl.
  - destruct (nth_error (inflight w) k) as [f |]; [| exact Hl].
    apply live_resume. exact (proj2 Hl).
  - destruct (nth_error (timers w) k); [| exact Hl].
    apply live_processQueue; [exact Hok | exact (proj2 Hl)].
Qed.

Lemma live_step (w : World) (e : Event) :
  Forall fields_ok (files (store w)) -> live w -> live (step w e).
Proof.
  intros Hok Hl. pose proof (live_task e w Hok Hl) as [H1 H2].
  unfold step.
  destruct (run_microtasks_fields (task e w)) as (_ & F1 & F2 & _).
  destruct (run_microtasks_work (task e w)) as [Hw _].
  unfold live. rewrite F1, F2, Hw. split; [| exact H2].
  intros H. rewrite H. apply H1. exact H.
Qed.

Lemma live_run (es : list Event) (w : World) :
  Forall fields_ok (files (store w)) -> live w -> microtasks w = [] ->
  live (run w es) /\ microtasks (run w es) = [].
Proof.
  revert w. induction es as [| e es IH]; intros w Hok Hl Hm; [auto |].
  change (run w (e :: es)) with (run (step w e) es).
  apply IH.
  - apply fields_ok_step. exact Hok.
  - apply live_step; assumption.
  - unfold step. apply run_microtasks_work.
Qed.

(** X11. In every state the store can reach, an active orchestrator has a
    transfer awaited or a timer set that will re-enter the drive loop, so
    it never stalls with the flag on; and [currentUploadingId] names an
    item only while the orchestrator is active. *)
Theorem active_queue_never_stalls (es : list Event) :
  (isUploading (store (run initial_world es)) = true ->
   1 <= continuations (run initial_world es))
  /\ (currentUploadingId (store (run initial_world es)) <> None ->
      isUploading (store (run initial_world es)) = true).
Proof.
  destruct (live_run es initial_world) as [[H1 H2] Hm].
  - constructor.
  - split; simpl; [discriminate | congruence].
  - reflexivity.
  - split; [| exact H2]. intros H. apply H1 in H.
    unfold work in H. rewrite Hm in H. simpl in H. lia.
Qed.

(** ** One transfer at a time, when nothing halts the queue *)

Lemma single_processQueue (w : World) :
  Forall fields_ok (files (store w)) ->
  isUploading (store w) = true -> work w = 0 ->
  single (processQueue w).
Proof.
  intros Hok Hact H0. destruct (processQueue_work w Hok Hact) as [Hw _].
  unfold single. rewrite Hw, H0. reflexivity.
Qed.

Lemma single_startUpload (w : World) :
  Forall fields_ok (files (store w)) -> single w -> single (startUpload w).
Proof.
  intros Hok Hs. unfold startUpload.
  destruct (isUploading (store w)) eqn:Hact; simpl; [exact Hs |].
  apply single_processQueue; [exact Hok | reflexivity |].
  unfold single in Hs. rewrite Hact in Hs. exact Hs.
Qed.

Lemma single_task (e : Event) (w : World) :
  halts e = false ->
  Forall fields_ok (files (store w)) -> single w -> single (task e w).
Proof.
  intros Hh Hok Hs.
  destruct e as [fs baseTitle descr initialError | i | | | | | i | t
                | k p | k o | k]; simpl; try discriminate.
  - unfold addFiles. case_if; [| exact Hs].
    apply single_startUpload; [| exact Hs].
    simpl. apply Forall_app. split; [exact Hok | apply newFiles_fields_ok].
  - exact Hs.
  - exact Hs.
  - apply single_startUpload; assumption.
  - unfold retryFile. case_if; [| exact Hs].
    apply single_startUpload; [| exact Hs].
    simpl. apply fields_ok_retry. exact Hok.
  - exact Hs.
  - destruct (nth_error (inflight w) k); exact Hs.
  - destruct (nth_error (inflight w) k) as [f |] eqn:Hk; [| exact Hs].
    apply length_remove_nth in Hk.
    unfold single, work, continuations in Hs.
    destruct (isUploading (store w)) eqn:Hact; [| lia].
    destruct (resume_fields f o
                (mkWorld (store w) (access_token w)
                         (remove_nth k (inflight w)) (microtasks w)
                         (timers w) (effects w)))
      as (H1 & _ & H3 & H4 & H5 & _).
    unfold single, work, continuations. rewrite H1, H3, H4, H5. simpl.
    rewrite Hact. lia.
  - destruct (nth_error (timers w) k) as [d |] eqn:Hk; [| exact Hs].
    apply length_remove_nth in Hk.
    unfold single, work, continuations in Hs.
    destruct (isUploading (store w)) eqn:Hact; [| lia].
    apply single_processQueue; [exact Hok | exact Hact |].
    unfold work, continuations. simpl. lia.
Qed.

Lemma single_step (w : World) (e : Event) :
  halts e = false ->
  Forall fields_ok (files (store w)) -> single w ->
  single (step w e) /\ microtasks (step w e) = [].
Proof.
  intros Hh Hok Hs. pose proof (single_task e w Hh Hok Hs) as H.
  unfold step.
  destruct (run_microtasks_fields (task e w)) as (_ & F1 & _).
  destruct (run_microtasks_work (task e w)) as [Hw Hm].
  split; [| exact Hm]. unfold single in *. rewrite F1, Hw.
  destruct (isUploading (store (task e w))); [exact H |].
  unfold work in H. lia.
Qed.

Lemma single_run (es : list Event) (w : World) :
  Forall (fun e => halts e = false) es ->
  Forall fields_ok (files (store w)) -> single w -> microtasks w = [] ->
  single (run w es) /\ microtasks (run w es) = [].
Proof.
  revert w. induction es as [| e es IH]; intros w Hes Hok Hs Hm; [auto |].
  inversion Hes as [| ? ? He Hes']; subst.
  change (run w (e :: es)) with (run (step w e) es).
  destruct (single_step w e He Hok Hs) as [Hs' Hm'].
  apply IH; try assumption. apply fields_ok_step. exact Hok.
Qed.

(** X12. As long as the queue is neither paused nor cleared, the drive
    loop has exactly one continuation while the orchestrator is active, a
    transfer awaited or a timer set, and none while it is idle; so at most
    one transfer is in flight. *)
Theorem single_transfer_unless_halted (es : list Event) :
  Forall (fun e => halts e = false) es ->
  continuations (run initial_world es)
  = (if isUploading (store (run initial_world es)) then 1 else 0)
  /\ List.length (inflight (run initial_world es)) <= 1.
Proof.
  intros Hes.
  destruct (single_run es initial_world Hes) as [Hs Hm];
    try reflexivity; [constructor |].
  unfold single, work in Hs. rewrite Hm in Hs. simpl in Hs.
  split; [lia |]. unfold continuations in Hs.
  destruct (isUploading (store (run initial_world es))); lia.
Qed.

Lemma single_transfer_unless_halted_witness :
  List.length
    (inflight (run initial_world (firstn 3 pause_restart_trace))) <= 1.
Proof.
  apply (single_transfer_unless_halted (firstn 3 pause_restart_trace)).
  repeat constructor.
Defined.

(** ** An idle queue *)

Lemma idle_step (w : World) (e : Event) :
  isUploading (store w) = false -> starts e = false ->
  isUploading (store (step w e)) = false
  /\ effects (step w e) = effects w
  /\ List.length (inflight (step w e)) <= List.length (inflight w)
  /\ List.length (timers (step w e)) <= List.length (timers w).
Proof.
  intros Hidle Hs.
  assert (Ht : isUploading (store (task e w)) = false
               /\ effects (task e w) = effects w
               /\ List.length (inflight (task e w))
                  <= List.length (inflight w)
               /\ List.length (timers (task e w))
                  <= List.length (timers w)).
  { destruct e as [fs baseTitle descr initialError | i | | | | | i | t
                  | k p | k o | k]; simpl; try discriminate.
    1-5: repeat split; simpl; auto.
    - destruct (nth_error (inflight w) k); simpl; auto.
    - destruct (nth_error (inflight w) k) as [f |] eqn:Hk; [| auto].
      apply length_remove_nth in Hk.
      destruct (resume_fields f o
                  (mkWorld (store w) (access_token w)
                           (remove_nth k (inflight w)) (microtasks w)
                           (timers w) (effects w)))
        as (H1 & _ & H3 & _ & _ & H6).
      simpl in H6. destruct (H6 Hidle) as [H7 H8].
      rewrite H1, H3, H7, H8. simpl. repeat split; auto. lia.
    - destruct (nth_error (timers w) k) as [d |] eqn:Hk; [| auto].
      apply length_remove_nth in Hk.
      rewrite processQueue_idle by exact Hidle. simpl.
      repeat split; auto. lia. }
  destruct Ht as (T1 & T2 & T3 & T4). unfold step.
  destruct (run_microtasks_fields (task e w)) as (_ & F1 & _ & F3 & _ & F5).
  destruct (F5 T1) as [F6 F7]. rewrite F1, F3, F6, F7. auto.
Qed.

(** X13. Once the orchestrator is idle it stays idle until a command that
    starts it ([addFiles], [startUpload] or [retryFile]): transfers that
    settle, progress reports, timers that fire, removals and clearings
    call the Transfer Client for nothing, send nothing, set no timer, and
    only use up the transfers and timers that were left. *)
Theorem idle_until_started (w : World) (es : list Event) :
  isUploading (store w) = false ->
  Forall (fun e => starts e = false) es ->
  isUploading (store (run w es)) = false
  /\ effects (run w es) = effects w
  /\ List.length (inflight (run w es)) <= List.length (inflight w)
  /\ List.length (timers (run w es)) <= List.length (timers w).
Proof.
  revert w. induction es as [| e es IH]; intros w Hidle Hes; [auto |].
  inversion Hes as [| ? ? He Hes']; subst.
  change (run w (e :: es)) with (run (step w e) es).
  destruct (idle_step w e Hidle He) as (S1 & S2 & S3 & S4).
  destruct (IH (step w e) S1 Hes') as (I1 & I2 & I3 & I4).
  rewrite I2, S2. repeat split; auto; lia.
Qed.

Lemma idle_until_started_witness :
  isUploading
    (store (run (pauseUpload world_after_success)
                [TimerFires 0; Settle 0 (Reject network_error)]))
  = false.
Proof.
  apply (idle_until_started (pauseUpload world_after_success)
           [TimerFires 0; Settle 0 (Reject network_error)]).
  - reflexivity.
  - repeat constructor.
Defined.

Lemma cleared_resume (f : UploadFile) (o : Outcome) (w : World) :
  store w = initial_store ->
  store (processQueue_resume f o w) = initial_store.
Proof.
  intros Hw. destruct o; simpl; repeat (rewrite Hw; simpl); reflexivity.
Qed.

Lemma cleared_fold_resume (l : list (UploadFile * string)) (w : World) :
  store w = initial_store ->
  store (fold_left
           (fun w m => processQueue_resume (fst m) (Reject (snd m)) w) l w)
  = initial_store.
Proof.
  revert w. induction l as [| m l IH]; intros w Hw; [exact Hw |].
  cbn [fold_left]. apply IH. apply cleared_resume. exact Hw.
Qed.

Lemma cleared_step (w : World) (e : Event) :
  store w = initial_store -> starts e = false ->
  store (step w e) = initial_store.
Proof.
  intros Hw Hs.
  assert (Ht : store (task e w) = initial_store).
  { destruct e as [fs baseTitle descr initialError | i | | | | | i | t
                  | k p | k o | k]; simpl; try discriminate.
    1-4: rewrite ?Hw; reflexivity.
    - exact Hw.
    - destruct (nth_error (inflight w) k); simpl; rewrite Hw; reflexivity.
    - destruct (nth_error (inflight w) k); [| exact Hw].
      apply cleared_resume. exact Hw.
    - destruct (nth_error (timers w) k); [| exact Hw].
      rewrite processQueue_idle; simpl; rewrite Hw; reflexivity. }
  unfold step, run_microtasks. apply cleared_fold_resume. exact Ht.
Qed.

(** X14. [clearAll] empties the store for good: whatever was in flight or
    scheduled, the settlements, progress reports and timers that arrive
    afterwards leave the store empty and idle, until a command that starts
    the queue. *)
Theorem clearAll_discards_late_events (w : World) (es : list Event) :
  Forall (fun e => starts e = false) es ->
  store (run (clearAll w) es) = initial_store.
Proof.
  intros Hes.
  assert (H : forall w0, store w0 = initial_store ->
                         store (run w0 es) = initial_store).
  { induction es as [| e es IH]; intros w0 H0; [exact H0 |].
    inversion Hes as [| ? ? He Hes']; subst.
    change (run w0 (e :: es)) with (run (step w0 e) es).
    apply (IH Hes'). apply cleared_step; assumption. }
  apply H. reflexivity.
Qed.

Lemma clearAll_discards_late_events_witness :
  store (run (clearAll (run initial_world pause_restart_trace))
             [Settle 0 (Resolve "ok"); Progress 0 50;
              Settle 0 (Reject abort_error)])
  = initial_store.
Proof.
  apply (clearAll_discards_late_events
           (run initial_world pause_restart_trace)
           [Settle 0 (Resolve "ok"); Progress 0 50;
            Settle 0 (Reject abort_error)]).
  repeat constructor.
Defined.

(** ** The number of pending items *)

Lemma pending_map_le (g : UploadFile -> UploadFile) (l : list UploadFile) :
  (forall f, is_pending (g f) = true -> is_pending f = true) ->
  List.length (filter is_pending (map g l))
  <= List.length (filter is_pending l).
Proof.
  intros Hg. induction l as [| f l IH]; simpl; [lia |].
  destruct (is_pending (g f)) eqn:E.
  - rewrite (Hg f E). simpl. lia.
  - destruct (is_pending f); simpl; lia.
Qed.

Lemma pending_map_lt (g : UploadFile -> UploadFile) (l : list UploadFile)
    (f : UploadFile) :
  (forall f, is_pending (g f) = true -> is_pending f = true) ->
  In f l -> is_pending f = true -> is_pending (g f) = false ->
  List.length (filter is_pending (map g l))
  < List.length (filter is_pending l).
Proof.
  intros Hg Hin Hp Hgp. induction l as [| x l IH]; [contradiction |].
  simpl. destruct Hin as [-> | Hin].
  - rewrite Hgp, Hp. simpl. pose proof (pending_map_le g l Hg). lia.
  - specialize (IH Hin). destruct (is_pending (g x)) eqn:E.
    + rewrite (Hg x E). simpl. lia.
    + destruct (is_pending x); simpl; lia.
Qed.

Lemma pending_filter_le (p : UploadFile -> bool) (l : list UploadFile) :
  List.length (filter is_pending (filter p l))
  <= List.length (filter is_pending l).
Proof.
  induction l as [| f l IH]; simpl; [lia |].
  destruct (p f); simpl; destruct (is_pending f); simpl; lia.
Qed.

Lemma update_keeps_non_pending (i : string) (st : Status) (p : Z)
    (err res : option string) (f : UploadFile) :
  st <> pending ->
  is_pending (if String.eqb (id f) i then with_status st p err res f else f)
  = true ->
  is_pending f = true.
Proof.
  intros Hst. destruct (String.eqb (id f) i); [| auto].
  unfold is_pending. simpl. intros H. apply Status_eqb_eq in H.
  contradiction.
Qed.

Lemma pending_updateFileStatus_le (i : string) (st : Status) (p : Z)
    (err res : option string) (s : UploadState) :
  st <> pending ->
  pendingCount (updateFileStatus i st p err res s) <= pendingCount s.
Proof.
  intros Hst. unfold pendingCount, count_status. simpl.
  apply (pending_map_le
           (fun f => if String.eqb (id f) i
                     then with_status st p err res f else f)).
  intros f. apply update_keeps_non_pending. exact Hst.
Qed.

Lemma pending_updateFileStatus_lt (f : UploadFile) (st : Status) (p : Z)
    (err res : option string) (s : UploadState) :
  st <> pending -> In f (files s) -> status f = pending ->
  pendingCount (updateFileStatus (id f) st p err res s) < pendingCount s.
Proof.
  intros Hst Hin Hp. unfold pendingCount, count_status. simpl.
  apply (pending_map_lt
           (fun g => if String.eqb (id g) (id f)
                     then with_status st p err res g else g)
           (files s) f).
  - intros g. apply update_keeps_non_pending. exact Hst.
  - exact Hin.
  - apply Status_eqb_eq. exact Hp.
  - rewrite String.eqb_refl. apply Status_eqb_neq. exact Hst.
Qed.

Lemma processQueue_consumes (w : World) (f : UploadFile) :
  isUploading (store w) = true ->
  fileToUpload (store w) = Some f ->
  file f <> None ->
  pendingCount (store (processQueue w)) < pendingCount (store w)
  /\ isUploading (store (processQueue w)) = true.
Proof.
  intros Hact Hsel Hfile. unfold processQueue. rewrite Hact, Hsel. simpl.
  apply fileToUpload_pending in Hsel. destruct Hsel as [Hin Hp].
  destruct (file f) as [fl |]; [clear Hfile | contradiction].
  assert (Hfv : forall msg,
             pendingCount (store (fail_validation f msg w))
             < pendingCount (store w)
             /\ isUploading (store (fail_validation f msg w)) = true).
  { intros msg. unfold fail_validation. simpl. rewrite Hact. simpl.
    split; [| exact Hact].
    apply (pending_updateFileStatus_lt f error 0 (Some msg) None (store w));
      [discriminate | exact Hin | exact Hp]. }
  destruct (MAX_FILE_SIZE <? fsize fl)%N; [apply Hfv |].
  destruct (String.eqb (ftype fl) "application/pdf"); simpl;
    [| apply Hfv].
  assert (Hup : pendingCount
                  (updateFileStatus (id f) uploading 0 None None
                     (set_currentUploadingId (store w) (Some (id f))))
                < pendingCount (store w)).
  { apply (pending_updateFileStatus_lt f uploading 0 None None
             (set_currentUploadingId (store w) (Some (id f))));
      [discriminate | exact Hin | exact Hp]. }
  unfold uploadPDF. simpl.
  destruct (access_token w) as [[| c t] |]; simpl; auto.
Qed.

Lemma pending_fail_validation_le (f : UploadFile) (msg : string)
    (w : World) :
  pendingCount (store (fail_validation f msg w)) <= pendingCount (store w).
Proof.
  unfold fail_validation.
  assert (H : pendingCount
                (updateFileStatus (id f) error 0 (Some msg) None (store w))
              <= pendingCount (store w)).
  { apply pending_updateFileStatus_le. discriminate. }
  case_if; exact H.
Qed.

Lemma pending_processQueue_le (w : World) :
  pendingCount (store (processQueue w)) <= pendingCount (store w).
Proof.
  unfold processQueue.
  destruct (isUploading (store w)); simpl; [| lia].
  destruct (fileToUpload (store w)) as [f |]; [| apply le_n].
  destruct (file f) as [fl |]; [| lia].
  destruct (MAX_FILE_SIZE <? fsize fl)%N;
    [apply pending_fail_validation_le |].
  destruct (String.eqb (ftype fl) "application/pdf"); simpl;
    [| apply pending_fail_validation_le].
  assert (H : pendingCount
                (updateFileStatus (id f) uploading 0 None None
                   (set_currentUploadingId (store w) (Some (id f))))
              <= pendingCount (store w)).
  { apply (pending_updateFileStatus_le (id f) uploading 0 None None
             (set_currentUploadingId (store w) (Some (id f)))).
    discriminate. }
  unfold uploadPDF. simpl.
  destruct (access_token w) as [[| c t] |]; exact H.
Qed.

Lemma pending_resume_le (f : UploadFile) (o : Outcome) (w : World) :
  pendingCount (store (processQueue_resume f o w))
  <= pendingCount (store w).
Proof.
  destruct o as [res | msg]; simpl.
  - assert (H : pendingCount
                  (updateFileStatus (id f) success 100 None (Some res)
                     (store w))
                <= pendingCount (store w)).
    { apply pending_updateFileStatus_le. discriminate. }
    case_if; exact H.
  - assert (H : pendingCount
                  (updateFileStatus (id f) error 0 (Some msg) None
                     (store w))
                <= pendingCount (store w)).
    { apply pending_updateFileStatus_le. discriminate. }
    case_if; exact H.
Qed.

Lemma pending_fold_resume_le (l : list (UploadFile * string)) (w : World) :
  pendingCount
    (store (fold_left
              (fun w m => processQueue_resume (fst m) (Reject (snd m)) w)
              l w))
  <= pendingCount (store w).
Proof.
  revert w. induction l as [| m l IH]; intros w; [simpl; lia |].
  cbn [fold_left].
  pose proof (IH (processQueue_resume (fst m) (Reject (snd m)) w)).
  pose proof (pending_resume_le (fst m) (Reject (snd m)) w). lia.
Qed.

(** X15. Only [addFiles] and [retryFile] put items into [pending]: no other
    command, and no settlement, progress report or timer, ever increases
    the number of pending items. *)
Theorem pending_grows_only_by_command (w : World) (e : Event) :
  queues e = false ->
  pendingCount (store (step w e)) <= pendingCount (store w).
Proof.
  intros Hq.
  assert (Ht : pendingCount (store (task e w)) <= pendingCount (store w)).
  { destruct e as [fs baseTitle descr initialError | i | | | | | i | t
                  | k p | k o | k]; simpl; try discriminate.
    - apply pending_filter_le.
    - apply pending_filter_le.
    - unfold pendingCount, count_status. simpl. lia.
    - unfold startUpload. destruct (isUploading (store w)); simpl; [lia |].
      apply (pending_processQueue_le
               (on_store (fun s => set_isUploading s true) w)).
    - unfold pendingCount, count_status. simpl. lia.
    - lia.
    - destruct (nth_error (inflight w) k) as [f |]; [| lia].
      apply (pending_updateFileStatus_le (id f) uploading p None None
               (store w)).
      discriminate.
    - destruct (nth_error (inflight w) k) as [f |]; [| lia].
      apply (pending_resume_le f o
               (mkWorld (store w) (access_token w)
                        (remove_nth k (inflight w)) (microtasks w)
                        (timers w) (effects w))).
    - destruct (nth_error (timers w) k); [| lia].
      apply (pending_processQueue_le
               (mkWorld (store w) (access_token w) (inflight w)
                        (microtasks w) (remove_nth k (timers w))
                        (effects w))). }
  unfold step, run_microtasks.
  pose proof (pending_fold_resume_le (microtasks (task e w))
                (mkWorld (store (task e w)) (access_token (task e w))
                         (inflight (task e w)) [] (timers (task e w))
                         (effects (task e w)))) as Hf.
  eapply Nat.le_trans; [exact Hf | exact Ht].
Qed.

Lemma pending_grows_only_by_command_witness :
  pendingCount (store (step world_ready (TimerFires 0)))
  <= pendingCount (store world_ready).
Proof.
  apply (pending_grows_only_by_command world_ready (TimerFires 0)).
  reflexivity.
Defined.

(** X16. When a timer fires on an active orchestrator and the drive loop
    finds a pending item that has its file, at least one item leaves
    [pending] in that step and the orchestrator stays active. *)
Theorem timer_tick_consumes_pending
    (w : World) (k : nat) (d : Z) (f : UploadFile) :
  nth_error (timers w) k = Some d ->
  isUploading (store w) = true ->
  fileToUpload (store w) = Some f ->
  file f <> None ->
  pendingCount (store (step w (TimerFires k))) < pendingCount (store w)
  /\ isUploading (store (step w (TimerFires k))) = true.
Proof.
  intros Hk Hact Hsel Hfile. unfold step. simpl. rewrite Hk.
  set (w1 := mkWorld (store w) (access_token w) (inflight w) (microtasks w)
                     (remove_nth k (timers w)) (effects w)).
  destruct (processQueue_consumes w1 f Hact Hsel Hfile) as [Hlt Hact'].
  destruct (run_microtasks_fields (processQueue w1)) as (_ & F1 & _).
  split; [| now rewrite F1].
  pose proof (pending_fold_resume_le (microtasks (processQueue w1))
                (mkWorld (store (processQueue w1))
                         (access_token (processQueue w1))
                         (inflight (processQueue w1)) []
                         (timers (processQueue w1))
                         (effects (processQueue w1)))) as Hf.
  eapply Nat.le_lt_trans; [exact Hf | exact Hlt].
Qed.

Lemma timer_tick_consumes_pending_witness :
  pendingCount
    (store (step (mkWorld (mkUploadState [sample_item pending] true None)
                          (Some "tok") [] [] [500%Z] [])
                 (TimerFires 0)))
  = 0.
Proof.
  destruct (timer_tick_consumes_pending
              (mkWorld (mkUploadState [sample_item pending] true None)
                       (Some "tok") [] [] [500%Z] [])
              0 500%Z (sample_item pending)
              eq_refl eq_refl eq_refl ltac:(discriminate))
    as [H _].
  change (pendingCount
            (store (mkWorld (mkUploadState [sample_item pending] true None)
                            (Some "tok") [] [] [500%Z] [])))
    with 1 in H.
  lia.
Defined.

(** X17. Whenever the views offer the Start button, pressing it has an
    effect: the orchestrator becomes active and the first pending item
    leaves [pending], for a transfer or for an error. *)
Theorem start_button_is_effective (w : World) :
  showStart (store w) = true ->
  Forall (fun f => file f <> None) (files (store w)) ->
  isUploading (store (startUpload w)) = true
  /\ pendingCount (store (startUpload w)) < pendingCount (store w).
Proof.
  unfold showStart. intros Hshow Hfiles.
  apply andb_true_iff in Hshow. destruct Hshow as [Hidle Hcount].
  apply negb_true_iff in Hidle. apply Nat.ltb_lt in Hcount.
  unfold startUpload. rewrite Hidle. simpl.
  destruct (fileToUpload (store w)) as [f |] eqn:Hsel.
  - pose proof (fileToUpload_pending _ _ Hsel) as [Hin _].
    rewrite Forall_forall in Hfiles.
    destruct (processQueue_consumes
                (on_store (fun s => set_isUploading s true) w) f
                eq_refl Hsel (Hfiles f Hin))
      as [H1 H2].
    split; [exact H2 | exact H1].
  - unfold fileToUpload, pendingFiles in Hsel.
    unfold pendingCount, count_status in Hcount.
    change (fun f => Status_eqb (status f) pending) with is_pending
      in Hcount.
    destruct (filter is_pending (files (store w))); [simpl in Hcount; lia |].
    discriminate.
Qed.

Lemma start_button_is_effective_witness :
  isUploading
    (store (startUpload
              (mkWorld sample_store (Some "tok") [] [] [] [])))
  = true.
Proof.
  apply (start_button_is_effective
           (mkWorld sample_store (Some "tok") [] [] [] [])).
  - reflexivity.
  - repeat constructor. discriminate.
Defined.

(** ** Items shown as uploading *)

Lemma update_uploading (i : string) (st : Status) (p : Z)
    (err res : option string) (s : UploadState) (f : UploadFile) :
  In f (files (updateFileStatus i st p err res s)) ->
  status f = uploading ->
  (In f (files s) /\ id f <> i) \/ (st = uploading /\ id f = i).
Proof.
  simpl. intros Hin Hst. apply in_map_iff in Hin.
  destruct Hin as [g [Hg Hin]].
  destruct (String.eqb_spec (id g) i) as [E | E]; subst f.
  - right. simpl in *. auto.
  - left. auto.
Qed.

Lemma resume_uploading (f : UploadFile) (o : Outcome) (w : World)
    (g : UploadFile) :
  In g (files (store (processQueue_resume f o w))) ->
  status g = uploading ->
  In g (files (store w)) /\ id g <> id f.
Proof.
  intros Hin Hst.
  assert (H : exists st p err res,
             st <> uploading
             /\ files (store (processQueue_resume f o w))
                = files (updateFileStatus (id f) st p err res (store w))).
  { destruct o as [r | m]; simpl.
    - exists success, 100%Z, None, (Some r). split; [discriminate |].
      case_if; reflexivity.
    - exists error, 0%Z, (Some m), None. split; [discriminate |].
      case_if; reflexivity. }
  destruct H as (st & p & err & res & Hne & E). rewrite E in Hin.
  apply update_uploading in Hin; [| exact Hst].
  destruct Hin as [H | [H _]]; [exact H | contradiction].
Qed.

Lemma remove_nth_keeps {A} (g : A -> string) (k : nat) (l : list A)
    (x : A) (i : string) :
  nth_error l k = Some x -> i <> g x -> In i (map g l) ->
  In i (map g (remove_nth k l)).
Proof.
  revert k. induction l as [| y l IH]; intros [| k] Hk Hne Hin;
    simpl in *; try discriminate.
  - injection Hk as ->. destruct Hin as [E | Hin]; [congruence | exact Hin].
  - destruct Hin as [E | Hin]; [left; exact E | right; eauto].
Qed.

(** Items that are uploading afterwards were so before, or carry an id
    that is awaited afterwards. *)
Lemma uploading_awaited_from (w w' : World) :
  (forall f, In f (files (store w')) -> status f = uploading ->
             In (id f) (awaited_ids w')
             \/ (In f (files (store w)) /\ status f = uploading)) ->
  incl (awaited_ids w) (awaited_ids w') ->
  uploading_awaited w -> uploading_awaited w'.
Proof.
  intros Hf Hincl Hw f Hin Hst.
  destruct (Hf f Hin Hst) as [H | [H1 H2]]; [exact H |].
  apply Hincl. apply Hw; assumption.
Qed.

Lemma uploading_awaited_fail_validation (f : UploadFile) (msg : string)
    (w : World) :
  uploading_awaited w -> uploading_awaited (fail_validation f msg w).
Proof.
  apply uploading_awaited_from.
  - intros g Hin Hst. right. split; [| exact Hst].
    assert (E : files (store (fail_validation f msg w))
                = files (updateFileStatus (id f) error 0 (Some msg) None
                           (store w))).
    { unfold fail_validation. case_if; reflexivity. }
    rewrite E in Hin. apply update_uploading in Hin; [| exact Hst].
    destruct Hin as [[H _] | [H _]]; [exact H | discriminate].
  - unfold fail_validation. case_if; apply incl_refl.
Qed.

Lemma uploading_awaited_processQueue (w : World) :
  uploading_awaited w -> uploading_awaited (processQueue w).
Proof.
  intros Hw. unfold processQueue.
  destruct (isUploading (store w)); simpl; [| exact Hw].
  destruct (fileToUpload (store w)) as [f |]; [| exact Hw].
  destruct (file f) as [fl |]; [| exact Hw].
  destruct (MAX_FILE_SIZE <? fsize fl)%N;
    [apply uploading_awaited_fail_validation; exact Hw |].
  destruct (String.eqb (ftype fl) "application/pdf"); simpl;
    [| apply uploading_awaited_fail_validation; exact Hw].
  revert Hw. apply uploading_awaited_from.
  - intros g Hin Hst.
    assert (Hin' : In g (files (updateFileStatus (id f) uploading 0 None
                                  None (store w)))).
    { unfold uploadPDF in Hin.
      destruct (access_token _) as [[| c t] |]; exact Hin. }
    apply update_uploading in Hin'; [| exact Hst].
    destruct Hin' as [[H _] | [_ H]]; [right; auto | left].
    rewrite H. unfold uploadPDF, awaited_ids.
    destruct (access_token _) as [[| c t] |]; simpl;
      rewrite !map_app, !in_app_iff; simpl; auto.
  - unfold uploadPDF, awaited_ids.
    destruct (access_token _) as [[| c t] |]; simpl;
      intros x Hx; rewrite !map_app, !in_app_iff in *; simpl; tauto.
Qed.

Lemma uploading_awaited_startUpload (w : World) :
  uploading_awaited w -> uploading_awaited (startUpload w).
Proof.
  intros Hw. unfold startUpload.
  destruct (isUploading (store w)); simpl; [exact Hw |].
  apply uploading_awaited_processQueue. exact Hw.
Qed.

Lemma uploading_awaited_task (e : Event) (w : World) :
  uploading_awaited w -> uploading_awaited (task e w).
Proof.
  intros Hw.
  destruct e as [fs baseTitle descr initialError | i | | | | | i | t
                | k p | k o | k]; simpl.
  - unfold addFiles.
    assert (H : uploading_awaited
                  (on_store
                     (fun s => set_files s
                                 (files s ++ newFiles fs baseTitle
                                                descr initialError))
                     w)).
    { revert Hw. apply uploading_awaited_from; [| apply incl_refl].
      intros f Hin Hst. right. split; [| exact Hst].
      simpl in Hin. apply in_app_or in Hin. destruct Hin as [H | H];
        [exact H |].
      pose proof (newFiles_from_status 0 (List.length fs) fs baseTitle
                    descr initialError) as Hnew.
      rewrite Forall_forall in Hnew. apply Hnew in H.
      destruct H as [H _]. rewrite Hst in H.
      destruct (truthy initialError); discriminate. }
    case_if; [apply uploading_awaited_startUpload |]; exact H.
  - revert Hw. apply uploading_awaited_from; [| apply incl_refl].
    intros f Hin Hst. right. simpl in Hin. apply filter_In in Hin. tauto.
  - revert Hw. apply uploading_awaited_from; [| apply incl_refl].
    intros f Hin Hst. right. simpl in Hin. apply filter_In in Hin. tauto.
  - intros f [].
  - apply uploading_awaited_startUpload. exact Hw.
  - exact Hw.
  - unfold retryFile.
    assert (H : uploading_awaited
                  (on_store
                     (fun s => set_files s (map (retry_item i) (files s)))
                     w)).
    { revert Hw. apply uploading_awaited_from; [| apply incl_refl].
      intros f Hin Hst. right. split; [| exact Hst].
      simpl in Hin. apply in_map_iff in Hin. destruct Hin as [g [Hg Hin]].
      unfold retry_item in Hg.
      destruct (String.eqb (id g) i); subst f; [discriminate | exact Hin]. }
    case_if; [apply uploading_awaited_startUpload |]; exact H.
  - exact Hw.
  - destruct (nth_error (inflight w) k) as [f |] eqn:Hk; [| exact Hw].
    revert Hw. apply uploading_awaited_from; [| apply incl_refl].
    intros g Hin Hst.
    apply (update_uploading (id f) uploading p None None (store w)) in Hin;
      [| exact Hst].
    destruct Hin as [[H _] | [_ H]]; [right; auto | left].
    rewrite H. unfold awaited_ids. simpl. apply in_or_app. left.
    apply in_map. eapply nth_error_In. exact Hk.
  - destruct (nth_error (inflight w) k) as [f |] eqn:Hk; [| exact Hw].
    intros g Hin Hst. apply resume_uploading in Hin; [| exact Hst].
    destruct Hin as [Hin Hne]. simpl in Hin.
    pose proof (Hw g Hin Hst) as Hg. unfold awaited_ids in *.
    destruct (resume_fields f o
                (mkWorld (store w) (access_token w)
                         (remove_nth k (inflight w)) (microtasks w)
                         (timers w) (effects w)))
      as (_ & _ & H3 & H4 & _).
    rewrite H3, H4. simpl. apply in_app_or in Hg. apply in_or_app.
    destruct Hg as [Hg | Hg]; [left | right; exact Hg].
    eapply remove_nth_keeps; eauto.
  - destruct (nth_error (timers w) k); [| exact Hw].
    apply uploading_awaited_processQueue. exact Hw.
Qed.

Lemma uploading_fold_resume (l : list (UploadFile * string)) (w : World) :
  (forall f, In f (files (store w)) -> status f = uploading ->
             In (id f)
                (map id (inflight w) ++ map (fun m => id (fst m)) l)) ->
  forall f,
    In f (files (store
                   (fold_left
                      (fun w m =>
                         processQueue_resume (fst m) (Reject (snd m)) w)
                      l w))) ->
    status f = uploading ->
    In (id f) (map id (inflight w)).
Proof.
  revert w. induction l as [| m l IH]; intros w Hw f Hin Hst.
  - simpl in Hin. specialize (Hw f Hin Hst). now rewrite app_nil_r in Hw.
  - cbn [fold_left] in Hin.
    destruct (resume_fields (fst m) (Reject (snd m)) w)
      as (_ & _ & H3 & _).
    rewrite <- H3. apply (IH _) with (f := f); try assumption.
    intros g Hg Hgs. apply resume_uploading in Hg; [| exact Hgs].
    destruct Hg as [Hg Hne]. rewrite H3.
    specialize (Hw g Hg Hgs). apply in_app_or in Hw. apply in_or_app.
    destruct Hw as [Hw | [Hw | Hw]]; [left; exact Hw | | right; exact Hw].
    symmetry in Hw. contradiction.
Qed.

Lemma uploading_awaited_microtasks (w : World) :
  uploading_awaited w ->
  (forall f, In f (files (store (run_microtasks w))) ->
             status f = uploading ->
             In (id f) (map id (inflight (run_microtasks w))))
  /\ uploading_awaited (run_microtasks w).
Proof.
  intros Hw.
  assert (H : forall f, In f (files (store (run_microtasks w))) ->
                        status f = uploading ->
                        In (id f) (map id (inflight (run_microtasks w)))).
  { intros f Hin Hst.
    destruct (run_microtasks_fields w) as (_ & _ & _ & F3 & _).
    rewrite F3. unfold run_microtasks in Hin.
    apply (uploading_fold_resume (microtasks w)
             (mkWorld (store w) (access_token w) (inflight w) []
                      (timers w) (effects w))) in Hin; assumption. }
  split; [exact H |]. intros f Hin Hst. unfold awaited_ids.
  apply in_or_app. left. apply H; assumption.
Qed.

(** ** States of the event loop *)

(** Induction over the states the event loop goes through: whole tasks,
    then the calls of the task under way. The property may depend on the
    events run so far. *)
Lemma exec_ind (P : list Event -> World -> Prop) :
  (forall h w e, P h w -> P (h ++ [e]) (task e w)) ->
  forall cmds h w, P h w -> P (h ++ cmds) (exec w cmds).
Proof.
  intros Htask. induction cmds as [| e cmds IH]; intros h w Hw.
  - now rewrite app_nil_r.
  - change (exec w (e :: cmds)) with (exec (task e w) cmds).
    replace (h ++ e :: cmds) with ((h ++ [e]) ++ cmds)
      by now rewrite <- app_assoc.
    apply IH. apply Htask. exact Hw.
Qed.

Lemma reach_ind (P : list Event -> World -> Prop) (w0 : World) :
  P [] w0 ->
  (forall h w e, P h w -> P (h ++ [e]) (task e w)) ->
  (forall h w, P h w -> P h (run_microtasks w)) ->
  forall ts cmds,
    P (List.concat ts ++ cmds) (exec (run_tasks w0 ts) cmds).
Proof.
  intros H0 Htask Hmicro ts cmds.
  assert (Hts : forall ts h w, P h w ->
                               P (h ++ List.concat ts) (run_tasks w ts)).
  { clear ts. induction ts as [| t ts IH]; intros h w Hw.
    - simpl. now rewrite app_nil_r.
    - change (run_tasks w (t :: ts)) with (run_tasks (run_task w t) ts).
      simpl. rewrite app_assoc. apply IH. apply Hmicro.
      apply exec_ind; assumption. }
  apply (exec_ind P Htask cmds (List.concat ts) (run_tasks w0 ts)).
  apply (Hts ts [] w0 H0).
Qed.

(** A run of single-event tasks is a run of tasks. *)
Lemma run_as_tasks (es : list Event) (w : World) :
  run w es = run_tasks w (map (fun e => [e]) es).
Proof.
  revert w. induction es as [| e es IH]; intros w; [reflexivity |].
  change (run w (e :: es)) with (run (step w e) es). now rewrite IH.
Qed.

Lemma fields_ok_task (e : Event) (w : World) :
  Forall fields_ok (files (store w)) ->
  Forall fields_ok (files (store (task e w))).
Proof.
  apply (items_task fields_ok); try apply newFiles_fields_ok;
    unfold fields_ok; simpl; intros f; intros;
    repeat split; try tauto; discriminate.
Qed.

Lemma fields_ok_microtasks (w : World) :
  Forall fields_ok (files (store w)) ->
  Forall fields_ok (files (store (run_microtasks w))).
Proof.
  intros Hw. unfold run_microtasks.
  apply (items_fold_resume fields_ok); try exact Hw;
    unfold fields_ok; simpl; intros f; intros;
    repeat split; try tauto; discriminate.
Qed.

Lemma single_microtasks (w : World) : single w -> single (run_microtasks w).
Proof.
  intros Hs.
  destruct (run_microtasks_fields w) as (_ & F1 & _).
  destruct (run_microtasks_work w) as [Hw _].
  unfold single in *. rewrite F1, Hw.
  destruct (isUploading (store w)); [exact Hs |].
  unfold work in Hs. lia.
Qed.

(** X18. At every point of a run, between the store calls of a task as
    well as after whole tasks, an item shown as [uploading] has, under its
    id, a transfer in flight or an activation whose promise is already
    rejected and whose [catch] block runs when the task ends. Once the
    microtasks of a task have run, it has a transfer in flight. *)
Theorem uploading_items_are_awaited
    (ts : list (list Event)) (cmds : list Event) :
  (forall f,
      In f (files (store (run_tasks initial_world ts))) ->
      status f = uploading ->
      exists g, In g (inflight (run_tasks initial_world ts))
                /\ id g = id f)
  /\ (forall f,
        In f (files (store (exec (run_tasks initial_world ts) cmds))) ->
        status f = uploading ->
        (exists g, In g (inflight (exec (run_tasks initial_world ts) cmds))
                   /\ id g = id f)
        \/ (exists g msg,
              In (g, msg) (microtasks (exec (run_tasks initial_world ts) cmds))
              /\ id g = id f)).
Proof.
  split.
  - intros f Hin Hst.
    assert (H : forall ts w,
               (forall f, In f (files (store w)) -> status f = uploading ->
                          In (id f) (map id (inflight w))) ->
               forall f, In f (files (store (run_tasks w ts))) ->
                         status f = uploading ->
                         In (id f) (map id (inflight (run_tasks w ts)))).
    { clear. induction ts as [| t ts IH]; intros w Hw; [exact Hw |].
      change (run_tasks w (t :: ts)) with (run_tasks (run_task w t) ts).
      apply IH. apply uploading_awaited_microtasks.
      apply (exec_ind (fun _ w => uploading_awaited w)
               (fun _ w e => uploading_awaited_task e w) t [] w).
      intros f Hin Hst. unfold awaited_ids. apply in_or_app. left.
      apply Hw; assumption. }
    apply (H ts initial_world) in Hin; [| intros g [] | exact Hst].
    apply in_map_iff in Hin. destruct Hin as [g [E Hg]]. eauto.
  - intros f Hin Hst.
    pose proof (reach_ind (fun _ w => uploading_awaited w) initial_world)
      as H.
    specialize (H (fun f (Hf : In f []) _ => match Hf with end)
                  (fun _ w e => uploading_awaited_task e w)
                  (fun _ w Hw => proj2 (uploading_awaited_microtasks w Hw))
                  ts cmds f Hin Hst).
    unfold awaited_ids in H. apply in_app_or in H.
    destruct H as [H | H]; apply in_map_iff in H.
    + left. destruct H as [g [E Hg]]. eauto.
    + right. destruct H as [[g msg] [E Hg]]. simpl in E. eauto.
Qed.

(** ** Ids in a run *)

Lemma ids_idents (w : World) :
  map id (files (store w)) = map (fun x => fst (fst (fst x))) (idents w).
Proof. unfold idents. rewrite map_map. reflexivity. Qed.

Lemma NoDup_map_filter {A B} (g : A -> B) (p : A -> bool) (l : list A) :
  NoDup (map g l) -> NoDup (map g (filter p l)).
Proof.
  induction l as [| x l IH]; simpl; intros H; [constructor |].
  inversion H as [| ? ? Hx Hl]; subst.
  destruct (p x); simpl; [constructor |]; auto.
  intros Hin. apply Hx. apply in_map_iff in Hin.
  destruct Hin as [y [E Hy]]. apply filter_In in Hy.
  rewrite <- E. apply in_map. tauto.
Qed.

Lemma incl_map_filter {A B} (g : A -> B) (p : A -> bool) (l : list A) :
  incl (map g (filter p l)) (map g l).
Proof.
  intros y Hy. apply in_map_iff in Hy. destruct Hy as [x [E Hx]].
  apply filter_In in Hx. rewrite <- E. apply in_map. tauto.
Qed.

Lemma NoDup_app_parts {A} (l1 l2 : list A) :
  NoDup (l1 ++ l2) ->
  NoDup l1 /\ NoDup l2 /\ forall x, In x l1 -> ~ In x l2.
Proof.
  induction l1 as [| a l1 IH]; simpl; intros H.
  - repeat split; [constructor | exact H | tauto].
  - inversion H as [| ? ? Ha Hl]; subst.
    destruct (IH Hl) as (H1 & H2 & H3). repeat split; [| exact H2 |].
    + constructor; [| exact H1]. intros Hin. apply Ha.
      apply in_or_app. left. exact Hin.
    + intros x [<- | Hx] Hx2; [| exact (H3 x Hx Hx2)].
      apply Ha. apply in_or_app. right. exact Hx2.
Qed.

Lemma stamps_app (h1 h2 : list Event) :
  stamps (h1 ++ h2) = stamps h1 ++ stamps h2.
Proof. unfold stamps. apply flat_map_app. Qed.

(** A call of [addFiles] brings the ids of its stamps. *)
Lemma ids_task_add (fs : list (N * File)) (baseTitle : string)
    (descr initialError : option string) (w : World) :
  map id (files (store (task (AddFiles fs baseTitle descr initialError) w)))
  = map id (files (store w)) ++ map id_of_stamp (stamps_from 0 fs).
Proof.
  rewrite ids_idents, idents_task by reflexivity.
  rewrite map_app, <- ids_idents. simpl. rewrite map_map.
  f_equal. apply (newFiles_from_ids 0 (List.length fs) fs baseTitle descr
                    initialError).
Qed.

(** Any other event brings no new id. *)
Lemma ids_task_other (w : World) (e : Event) :
  created_by e = [] ->
  NoDup (map id (files (store w))) ->
  NoDup (map id (files (store (task e w))))
  /\ incl (map id (files (store (task e w)))) (map id (files (store w))).
Proof.
  intros Hc Hnd. destruct (removes e) eqn:Hr.
  - destruct e; try discriminate; simpl.
    + split; [apply NoDup_map_filter; exact Hnd | apply incl_map_filter].
    + split; [apply NoDup_map_filter; exact Hnd | apply incl_map_filter].
    + split; [constructor | intros x []].
  - rewrite (ids_idents (task e w)), (idents_task e w Hr), Hc.
    simpl. rewrite app_nil_r, <- ids_idents.
    split; [exact Hnd | apply incl_refl].
Qed.

Lemma ids_microtasks (w : World) :
  map id (files (store (run_microtasks w))) = map id (files (store w)).
Proof.
  rewrite !ids_idents. unfold run_microtasks.
  now rewrite idents_fold_resume.
Qed.

(** When the stamps of a run are pairwise distinct, so are the ids in the
    queue, and each comes from a stamp of the run. *)
Lemma ids_reach (ts : list (list Event)) (cmds : list Event) :
  NoDup (stamps (List.concat ts ++ cmds)) ->
  NoDup (map id (files (store (exec (run_tasks initial_world ts) cmds))))
  /\ forall i,
       In i (map id (files (store (exec (run_tasks initial_world ts) cmds))))
       -> exists st, In st (stamps (List.concat ts ++ cmds))
                     /\ i = id_of_stamp st.
Proof.
  apply (reach_ind
           (fun h w =>
              NoDup (stamps h) ->
              NoDup (map id (files (store w)))
              /\ forall i, In i (map id (files (store w))) ->
                           exists st, In st (stamps h)
                                      /\ i = id_of_stamp st)
           initial_world).
  - intros _. split; [constructor | intros i []].
  - intros h w e IH Hnd. rewrite stamps_app in Hnd.
    apply NoDup_app_parts in Hnd. destruct Hnd as (Hh & He & Hdis).
    destruct (IH Hh) as [Hids Hfrom].
    assert (Hcase : (exists fs baseTitle descr initialError,
                        e = AddFiles fs baseTitle descr initialError)
                    \/ created_by e = [] /\ stamps [e] = []).
    { destruct e; [left; eauto 6 | right; auto ..]. }
    destruct Hcase as [(fs & baseTitle & descr & initialError & ->)
                      | [Hc Hst]].
    + rewrite ids_task_add, stamps_app.
      simpl in He, Hdis |- *. rewrite app_nil_r in *. split.
      * apply NoDup_app; [exact Hids | |].
        -- apply NoDup_map_injective; [exact id_of_stamp_inj | exact He].
        -- intros i Hi Hi'. apply Hfrom in Hi. destruct Hi as (st & Hst & ->).
           apply in_map_iff in Hi'. destruct Hi' as (st' & E & Hst').
           apply id_of_stamp_inj in E. subst st'.
           exact (Hdis st Hst Hst').
      * intros i Hi. apply in_app_or in Hi. destruct Hi as [Hi | Hi].
        -- apply Hfrom in Hi. destruct Hi as (st & Hst & ->).
           exists st. split; [apply in_or_app; left; exact Hst | reflexivity].
        -- apply in_map_iff in Hi. destruct Hi as (st & <- & Hst).
           exists st. split; [apply in_or_app; right; exact Hst | reflexivity].
    + destruct (ids_task_other w e Hc Hids) as [Hnd' Hincl].
      split; [exact Hnd' |]. intros i Hi. apply Hincl, Hfrom in Hi.
      destruct Hi as (st & Hst' & ->). exists st.
      split; [| reflexivity]. rewrite stamps_app. apply in_or_app.
      left. exact Hst'.
  - intros h w IH Hnd. rewrite ids_microtasks. exact (IH Hnd).
Qed.

(** X19. An item is created with the reading of [Date.now()] taken for its
    file and its position in the call. When no two items of a run are
    created with the same reading at the same position, the ids of the
    items in the queue are pairwise distinct at every point of the run,
    whatever was removed, retried or uploaded in between. *)
Theorem distinct_stamps_keep_ids_distinct
    (ts : list (list Event)) (cmds : list Event) :
  NoDup (stamps (List.concat ts ++ cmds)) ->
  NoDup (map id (files (store (exec (run_tasks initial_world ts) cmds)))).
Proof. intros Hnd. apply (ids_reach ts cmds Hnd). Qed.

Lemma distinct_stamps_keep_ids_distinct_witness :
  map id (files (store (exec (run_tasks initial_world
                                [[AddFiles [(1000%N, a_pdf); (1000%N, b_pdf)]
                                            "Doc" None None]])
                             [AddFiles [(1001%N, big_pdf)] "big" None None])))
  = ["1000-0"; "1000-1"; "1001-0"]
  /\ NoDup (map id (files (store (exec (run_tasks initial_world
                                [[AddFiles [(1000%N, a_pdf); (1000%N, b_pdf)]
                                            "Doc" None None]])
                             [AddFiles [(1001%N, big_pdf)] "big" None None])))).
Proof.
  split; [reflexivity |].
  apply (distinct_stamps_keep_ids_distinct
           [[AddFiles [(1000%N, a_pdf); (1000%N, b_pdf)] "Doc" None None]]
           [AddFiles [(1001%N, big_pdf)] "big" None None]).
  simpl. repeat constructor; simpl; intuition discriminate.
Defined.

(** ** One uploading item, when nothing halts the queue *)

Lemma single_reach (ts : list (list Event)) (cmds : list Event) :
  Forall (fun e => halts e = false) (List.concat ts ++ cmds) ->
  Forall fields_ok (files (store (exec (run_tasks initial_world ts) cmds)))
  /\ single (exec (run_tasks initial_world ts) cmds).
Proof.
  apply (reach_ind
           (fun h w =>
              Forall (fun e => halts e = false) h ->
              Forall fields_ok (files (store w)) /\ single w)
           initial_world).
  - intros _. split; [constructor | reflexivity].
  - intros h w e IH Hh. apply Forall_app in Hh. destruct Hh as [Hh He].
    inversion He as [| ? ? He' _]; subst.
    destruct (IH Hh) as [Hok Hs].
    split; [apply fields_ok_task; exact Hok | apply single_task; assumption].
  - intros h w IH Hh. destruct (IH Hh) as [Hok Hs].
    split; [apply fields_ok_microtasks; exact Hok
           | apply single_microtasks; exact Hs].
Qed.

Lemma at_most_one_with_id (l : list UploadFile) (x : string) :
  NoDup (map id l) ->
  (forall f, In f l -> status f = uploading -> id f = x) ->
  List.length (filter (fun f => Status_eqb (status f) uploading) l) <= 1.
Proof.
  induction l as [| f l IH]; simpl; intros Hnd Hx; [lia |].
  inversion Hnd as [| ? ? Hf Hl]; subst.
  destruct (Status_eqb (status f) uploading) eqn:E.
  - apply Status_eqb_eq in E. simpl.
    assert (H0 : filter (fun f => Status_eqb (status f) uploading) l = []).
    { destruct (filter (fun f => Status_eqb (status f) uploading) l)
        as [| g r] eqn:Eg; [reflexivity |].
      assert (Hg : In g (filter (fun f => Status_eqb (status f) uploading)
                                l)).
      { rewrite Eg. left. reflexivity. }
      apply filter_In in Hg. destruct Hg as [Hg Hs].
      apply Status_eqb_eq in Hs. exfalso. apply Hf.
      rewrite (Hx f (or_introl eq_refl) E), <- (Hx g (or_intror Hg) Hs).
      apply in_map. exact Hg. }
    rewrite H0. simpl. lia.
  - apply IH; [exact Hl |]. intros g Hg. apply Hx. right. exact Hg.
Qed.

(** X20. In a run in which the queue is neither paused nor cleared and no
    two items are created with the same reading of [Date.now()] at the
    same position of their call, at most one item is [uploading], at every
    point of the run. *)
Theorem one_uploading_unless_halted
    (ts : list (list Event)) (cmds : list Event) :
  Forall (fun e => halts e = false) (List.concat ts ++ cmds) ->
  NoDup (stamps (List.concat ts ++ cmds)) ->
  uploadingCount (store (exec (run_tasks initial_world ts) cmds)) <= 1.
Proof.
  intros Hh Hst.
  destruct (single_reach ts cmds Hh) as [_ Hs].
  destruct (ids_reach ts cmds Hst) as [Hnd _].
  pose proof (reach_ind (fun _ w => uploading_awaited w) initial_world
                (fun f (Hf : In f []) _ => match Hf with end)
                (fun _ w e => uploading_awaited_task e w)
                (fun _ w Hw => proj2 (uploading_awaited_microtasks w Hw))
                ts cmds) as Hup.
  cbv beta in Hup.
  set (w := exec (run_tasks initial_world ts) cmds) in *.
  assert (Hlen : List.length (awaited_ids w) <= 1).
  { unfold awaited_ids. rewrite length_app, !length_map.
    unfold single, work, continuations in Hs.
    destruct (isUploading (store w)); lia. }
  unfold uploadingCount, count_status.
  destruct (awaited_ids w) as [| x [| y r]] eqn:Ea; simpl in Hlen; try lia.
  - apply (at_most_one_with_id _ EmptyString Hnd).
    intros f Hin Hf. pose proof (Hup f Hin Hf) as H. rewrite Ea in H.
    destruct H.
  - apply (at_most_one_with_id _ x Hnd).
    intros f Hin Hf. pose proof (Hup f Hin Hf) as H. rewrite Ea in H.
    destruct H as [H | []]. now rewrite H.
Qed.

Lemma one_uploading_unless_halted_witness :
  uploadingCount
    (store (exec (run_tasks initial_world
                    [[SetToken (Some "tok")];
                     [AddFiles [(1000%N, a_pdf); (1000%N, b_pdf)] "Doc" None
                               None]])
                 [AddFiles [(1001%N, big_pdf)] "big" None None]))
  <= 1.
Proof.
  apply (one_uploading_unless_halted
           [[SetToken (Some "tok")];
            [AddFiles [(1000%N, a_pdf); (1000%N, b_pdf)] "Doc" None None]]
           [AddFiles [(1001%N, big_pdf)] "big" None None]).
  - repeat constructor.
  - simpl. repeat constructor; simpl; intuition discriminate.
Defined.
